(** * SmartAIMap: the marker clustering pass of [src/App.tsx]

    The [clusters] memo of the [App] component turns the recent history
    entries into markers and groups them with a greedy, anchor-relative
    pass.  This file embeds that pass and proves its properties.

    JavaScript numbers are IEEE 754 binary64 values; they are modelled by
    Rocq's primitive floats, which have the same format and the same
    rounding.  [Set<string>] is modelled by [gset string]. *)

From Stdlib Require Import Floats Uint63.
From stdpp Require Import gmap strings list.
From Stdlib Require Import QArith.
Close Scope Q_scope.

Set Warnings "-clear-no-such-hyp,-inexact-float".

(** ** Data model ([src/types.ts]) *)

Inductive MarkerType := History | Anomaly | Sensor | POI.

Module MarkerData.
Record t := mk {
  id : string;
  label : string;
  description : string;
  type : MarkerType;
  x : float;
  y : float;
  thumbnailUrl : option string
}.
End MarkerData.

Module HistoryEntry.
Record t := mk {
  id : string;
  location : string;
  timestamp : string;
  imageUrl : option string;
  style : option string
}.
End HistoryEntry.

(** ** Numbers *)

(** [const CLUSTER_THRESHOLD = 12;] *)
Definition CLUSTER_THRESHOLD : float := 12%float.

(** [Math.pow(base, 2)]: the square of [base], computed as one rounded
    product (the case [y = 2] of the usual [pow] implementations). *)
Definition Math_pow_2 (base : float) : float := (base * base)%float.

(** [Math.sqrt(Math.pow(m1.x - m2.x, 2) + Math.pow(m1.y - m2.y, 2))] *)
Definition dist (m1 m2 : MarkerData.t) : float :=
  PrimFloat.sqrt
    (Math_pow_2 (MarkerData.x m1 - MarkerData.x m2)
     + Math_pow_2 (MarkerData.y m1 - MarkerData.y m2))%float.

(** A small non-negative integer as a JavaScript number. *)
Definition number_of_nat (n : nat) : float :=
  PrimFloat.of_uint63 (Uint63.of_Z (Z.of_nat n)).

(** ** The clustering pass, as loops over mutable locals *)

Section Cluster.
(** The source compares against the constant [CLUSTER_THRESHOLD]; the
    pass is written over an arbitrary threshold and instantiated in
    [clusters] below. *)
Variable thresholdDistance : float.
Variable historyMarkers : list MarkerData.t.

(** Body of the inner [historyMarkers.forEach((m2) => ...)], acting on
    the mutable [currentGroup] and [used]. *)
Definition inner_step (m1 : MarkerData.t)
    (st : list MarkerData.t * gset string) (m2 : MarkerData.t)
    : list MarkerData.t * gset string :=
  let '(currentGroup, used) := st in
  if decide (MarkerData.id m2 ∈ used) then st
  else if (dist m1 m2 <? thresholdDistance)%float
       then (currentGroup ++ [m2], {[MarkerData.id m2]} ∪ used)
       else st.

(** Body of the outer [historyMarkers.forEach((m1) => ...)], acting on
    the mutable [result] and [used]. *)
Definition outer_step
    (st : list (list MarkerData.t) * gset string) (m1 : MarkerData.t)
    : list (list MarkerData.t) * gset string :=
  let '(result, used) := st in
  if decide (MarkerData.id m1 ∈ used) then st
  else
    let '(currentGroup, used') :=
      foldl (inner_step m1) ([m1], {[MarkerData.id m1]} ∪ used)
            historyMarkers in
    (result ++ [currentGroup], used').

(** [result] and [used] start empty; the pass returns [result]. *)
Definition cluster : list (list MarkerData.t) :=
  fst (foldl outer_step ([], ∅) historyMarkers).

(** *** The same pass as structural recursion

    [pick m1 used l] is what one inner loop over [l] appends to the
    current group; [groups used l] is what the outer loop over [l]
    appends to [result].  [inner_loop] and [outer_loop] below show that
    the loops compute exactly these. *)

Definition ids (l : list MarkerData.t) : gset string :=
  list_to_set (MarkerData.id <$> l).

Fixpoint pick (m1 : MarkerData.t) (used : gset string)
    (l : list MarkerData.t) : list MarkerData.t :=
  match l with
  | [] => []
  | m2 :: l' =>
    if decide (MarkerData.id m2 ∈ used) then pick m1 used l'
    else if (dist m1 m2 <? thresholdDistance)%float
         then m2 :: pick m1 ({[MarkerData.id m2]} ∪ used) l'
         else pick m1 used l'
  end.

Fixpoint groups (used : gset string) (l : list MarkerData.t)
    : list (list MarkerData.t) :=
  match l with
  | [] => []
  | m1 :: l' =>
    if decide (MarkerData.id m1 ∈ used) then groups used l'
    else
      let used1 := {[MarkerData.id m1]} ∪ used in
      let picked := pick m1 used1 historyMarkers in
      (m1 :: picked) :: groups (ids picked ∪ used1) l'
  end.
End Cluster.

(** ** The caller: the [clusters] memo *)

Section Memo.
(** [Math.sin] and [Math.cos] only place the markers; their values are
    left open. *)
Variables Math_sin Math_cos : float → float.

(** [history.slice(1, 11)] *)
Definition slice_1_11 {A} (history : list A) : list A :=
  take 10 (drop 1 history).

(** [(idx * 25) % 80] on a list index. *)
Definition idx_offset (idx : nat) : float := number_of_nat ((idx * 25) mod 80).

(** The callback of [history.slice(1, 11).map((entry, idx) => ...)]. *)
Definition marker_of_entry (idx : nat) (entry : HistoryEntry.t)
    : MarkerData.t :=
  MarkerData.mk
    (HistoryEntry.id entry)
    ("Echo: " +:+ HistoryEntry.location entry)
    ("Temporal fracture detected from RAI capture at "
       +:+ HistoryEntry.timestamp entry
       +:+ ". Restore this timeline to revisit coordinates.")
    History
    (10 + idx_offset idx + Math_sin (number_of_nat idx) * 8)%float
    (40 + Math_cos (number_of_nat idx) * 20)%float
    (HistoryEntry.imageUrl entry).

Definition historyMarkers (history : list HistoryEntry.t)
    : list MarkerData.t :=
  imap marker_of_entry (slice_1_11 history).

Definition clusters (history : list HistoryEntry.t)
    (loading imageLoading : bool) : list (list MarkerData.t) :=
  if loading || imageLoading || (length history <=? 1) then []
  else cluster CLUSTER_THRESHOLD (historyMarkers history).
End Memo.

(** ** The pass over a store

    The pure pass above works on values.  To speak about what the pass
    writes, the same code is also given over a store of mutable cells:
    marker objects, arrays of references and the [Set] of ids.  A
    computation takes the store and returns a value and the new store,
    or fails on a dangling or ill-typed reference. *)

Abbreviation loc := positive.

Inductive cell :=
| CMarker (m : MarkerData.t)
| CArray (elems : list loc)
| CSet (s : gset string).

Abbreviation store := (gmap loc cell).

Definition M (A : Type) : Type := store → option (A * store).

Definition ret {A} (a : A) : M A := λ h, Some (a, h).

Definition bind {A B} (c : M A) (k : A → M B) : M B :=
  λ h, match c h with Some (a, h') => k a h' | None => None end.

Notation "'let!' x := c 'in' k" := (bind c (λ x, k))
  (at level 10, x pattern, c at level 100, k at level 200).
Notation "c ;;; k" := (bind c (λ _, k))
  (at level 100, k at level 200, right associativity).

(** [new Set()], [[]], [[m1]]: a cell at an address not in use. *)
Definition alloc (c : cell) : M loc :=
  λ h, let l := fresh (dom h) in Some (l, <[l := c]> h).

Definition get_marker (l : loc) : M MarkerData.t :=
  λ h, match h !! l with Some (CMarker m) => Some (m, h) | _ => None end.

Definition get_array (l : loc) : M (list loc) :=
  λ h, match h !! l with Some (CArray es) => Some (es, h) | _ => None end.

(** [arr.push(v)] *)
Definition array_push (l v : loc) : M unit :=
  λ h, match h !! l with
       | Some (CArray es) => Some ((), <[l := CArray (es ++ [v])]> h)
       | _ => None
       end.

(** [set.has(k)] *)
Definition set_has (l : loc) (k : string) : M bool :=
  λ h, match h !! l with
       | Some (CSet s) => Some (bool_decide (k ∈ s), h)
       | _ => None
       end.

(** [set.add(k)] *)
Definition set_add (l : loc) (k : string) : M unit :=
  λ h, match h !! l with
       | Some (CSet s) => Some ((), <[l := CSet ({[k]} ∪ s)]> h)
       | _ => None
       end.

(** [arr.forEach(f)] over the elements read from the array. *)
Fixpoint forEach {A} (l : list A) (f : A → M unit) : M unit :=
  match l with
  | [] => ret ()
  | a :: l' => f a ;;; forEach l' f
  end.

Section ClusterStore.
Variable thresholdDistance : float.
(** The references held by the locals [historyMarkers], [result] and
    [used]. *)
Variables historyMarkers result used : loc.

(** The inner callback [(m2) => { ... }]. *)
Definition inner_body (currentGroup m1 m2 : loc) : M unit :=
  let! o2 := get_marker m2 in
  let! seen := set_has used (MarkerData.id o2) in
  if seen then ret ()
  else
    let! o1 := get_marker m1 in
    if (dist o1 o2 <? thresholdDistance)%float
    then array_push currentGroup m2 ;;; set_add used (MarkerData.id o2)
    else ret ().

(** The outer callback [(m1) => { ... }]. *)
Definition outer_body (m1 : loc) : M unit :=
  let! o1 := get_marker m1 in
  let! seen := set_has used (MarkerData.id o1) in
  if seen then ret ()
  else
    let! currentGroup := alloc (CArray [m1]) in
    set_add used (MarkerData.id o1) ;;;
    let! elems := get_array historyMarkers in
    forEach elems (inner_body currentGroup m1) ;;;
    array_push result currentGroup.
End ClusterStore.

Definition cluster_store (thresholdDistance : float) (historyMarkers : loc)
    : M loc :=
  let! result := alloc (CArray []) in
  let! used := alloc (CSet ∅) in
  let! elems := get_array historyMarkers in
  forEach elems (outer_body thresholdDistance historyMarkers result used) ;;;
  ret result.

(** Reading values back from a store. *)
Definition read_marker (h : store) (l : loc) : option MarkerData.t :=
  match h !! l with Some (CMarker m) => Some m | _ => None end.

Definition read_array (h : store) (l : loc) : option (list loc) :=
  match h !! l with Some (CArray es) => Some es | _ => None end.

Definition read_marker_array (h : store) (l : loc)
    : option (list MarkerData.t) :=
  es ← read_array h l; mapM (read_marker h) es.

Definition read_groups (h : store) (l : loc)
    : option (list (list MarkerData.t)) :=
  gs ← read_array h l; mapM (read_marker_array h) gs.

(** What a store holds at an address, in terms of values: a marker,
    and a group array allocated after the store [h0] was taken. *)
Definition marker_at (h : store) (l : loc) (m : MarkerData.t) : Prop :=
  h !! l = Some (CMarker m).

Definition group_at (h0 h : store) (gl : loc) (g : list MarkerData.t)
    : Prop :=
  h0 !! gl = None
  ∧ ∃ G, h !! gl = Some (CArray G) ∧ Forall2 (marker_at h0) G g.

(** ** Other state of the [App] component *)

(** The updater of [setHistory] in [fetchRaiData] and [regenerateImage]:
    [prev => [entry, ...prev.slice(0, 19)]]. *)
Definition history_push (entry : HistoryEntry.t)
    (prev : list HistoryEntry.t) : list HistoryEntry.t :=
  entry :: take 19 prev.

(** The history after the entries [entries] were pushed, first to last,
    onto the initial empty history. *)
Definition history_after (entries : list HistoryEntry.t)
    : list HistoryEntry.t :=
  foldl (λ prev entry, history_push entry prev) [] entries.

(** [interface Ripple { id: number; x: number; y: number; }] *)
Module Ripple.
Record t := mk {
  id : float;
  x : float;
  y : float
}.
End Ripple.

(** The two updaters of [setRipples] in [handleViewClick]:
    [prev => [...prev, { id, x, y }]] at the click and, from the timeout,
    [prev => prev.filter(r => r.id !== id)]. *)
Definition add_ripple (r : Ripple.t) (prev : list Ripple.t)
    : list Ripple.t :=
  prev ++ [r].

Definition expire_ripple (id : float) (prev : list Ripple.t)
    : list Ripple.t :=
  filter (λ r, negb (Ripple.id r =? id)%float = true) prev.

(** What happens to [ripples] over time: a click adds its ripple, a
    timeout that fires removes by id. *)
Inductive ripple_event :=
| Click (r : Ripple.t)
| Expire (id : float).

Definition ripple_step (ripples : list Ripple.t) (ev : ripple_event)
    : list Ripple.t :=
  match ev with
  | Click r => add_ripple r ripples
  | Expire id => expire_ripple id ripples
  end.

(** [ripples] starts as [[]]. *)
Definition ripples_after (events : list ripple_event) : list Ripple.t :=
  foldl ripple_step [] events.

(** ** Audio samples ([decodeAudioData])

    [channelData[i] = dataInt16[i * numChannels + channel] / 32768.0]
    reads an element of an [Int16Array], divides it as a number and stores
    the quotient in a [Float32Array], which rounds it to binary32. *)

(** An integer as a JavaScript number. *)
Definition number_of_Z (v : Z) : float :=
  if (v <? 0)%Z then (- PrimFloat.of_uint63 (Uint63.of_Z (- v)))%float
  else PrimFloat.of_uint63 (Uint63.of_Z v).

(** The binary64 value of the nearest binary32 number: what a store into
    a [Float32Array] keeps of a number. *)
Definition to_binary32 (u : spec_float) : spec_float :=
  match u with
  | S754_finite s m e => binary_round 24 128 s m e
  | _ => u
  end.

Definition of_binary32 (u : spec_float) : spec_float :=
  match u with
  | S754_finite s m e => binary_round prec emax s m e
  | _ => u
  end.

Definition Math_fround (d : float) : float :=
  SF2Prim (of_binary32 (to_binary32 (Prim2SF d))).

Definition pcm_sample (v : Z) : float :=
  Math_fround (number_of_Z v / 32768)%float.

(** The integers [v], [v + 1], ..., [count] of them. *)
Fixpoint Z_range (v : Z) (count : nat) : list Z :=
  match count with
  | O => []
  | S k => v :: Z_range (v + 1) k
  end.

(** What is checked of each 16-bit value: the stored sample is the
    quotient itself, lies in [-1, 1) and gives the value back. *)
Definition pcm_sample_ok (v : Z) : bool :=
  let s := pcm_sample v in
  PrimFloat.Leibniz.eqb s (number_of_Z v / 32768)%float
  && (-1 <=? s)%float && (s <? 1)%float
  && PrimFloat.Leibniz.eqb (s * 32768)%float (number_of_Z v).

(** ** Exact distances

    The pass compares the rounded binary64 value [dist].  To compare it
    with the Euclidean distance of the same two points, the coordinates
    are also read as the rationals they stand for. *)

(** The rational that a finite number stands for ([0] for the two zeros;
    [NaN] and the infinities stand for no rational and are given [0]). *)
Definition exact_value (f : float) : Q :=
  match Prim2SF f with
  | S754_finite s m e =>
    ((if s then -1 else 1) * (Zpos m # 1) * Qpower 2 e)%Q
  | _ => 0%Q
  end.

(** The square of the Euclidean distance of two markers, without
    rounding. *)
Definition euclid_sq (m1 m2 : MarkerData.t) : Q :=
  let dx :=
    (exact_value (MarkerData.x m1) - exact_value (MarkerData.x m2))%Q in
  let dy :=
    (exact_value (MarkerData.y m1) - exact_value (MarkerData.y m2))%Q in
  (dx * dx + dy * dy)%Q.

(** ** Statements used below *)

(** A marker one of whose coordinates is [NaN]. *)
Definition nan_placed (m : MarkerData.t) : Prop :=
  is_nan (MarkerData.x m) = true ∨ is_nan (MarkerData.y m) = true.

(** [NaN] or [+Infinity], as a specification float. *)
Definition overflowed (u : spec_float) : Prop :=
  u = S754_nan ∨ u = S754_infinity false.

(** [NaN] or an infinity of either sign. *)
Definition nonfinite (u : spec_float) : Prop :=
  u = S754_nan ∨ ∃ s, u = S754_infinity s.

(** The anchors of a list of groups: the first member of each. *)
Definition anchors (gs : list (list MarkerData.t)) : list MarkerData.t :=
  omap head gs.

(** [l] lists markers in the order in which they occur in [input]: of
    two entries of [l], the earlier one is found earlier in [input]. *)
Definition in_input_order (input l : list MarkerData.t) : Prop :=
  ∀ p q m m' i j,
    p < q → l !! p = Some m → l !! q = Some m' →
    input !! i = Some m → input !! j = Some m' → i < j.

(** Every distance comparison that involves [m] is on a [NaN]. *)
Definition degenerate (ms : list MarkerData.t) (m : MarkerData.t) : Prop :=
  ∀ m', m' ∈ ms →
    is_nan (dist m m') = true ∧ is_nan (dist m' m) = true.

(** A group is a singleton exactly when its marker is not within the
    threshold of any marker that the groups before it had claimed. *)
Definition singleton_iff_clear_of_claimed (t : float)
    (ms : list MarkerData.t) : Prop :=
  ∀ out1 g out2 a,
    cluster t ms = out1 ++ g :: out2 → head g = Some a →
    (length g = 1 ↔
     ∀ c, c ∈ concat out1 → (dist a c <? t)%float = false).

(** Of two markers with one id, the later one is in no group. *)
Definition later_duplicate_omitted (t : float)
    (ms : list MarkerData.t) : Prop :=
  ∀ pre m1 mid m2 post,
    ms = pre ++ m1 :: mid ++ m2 :: post →
    MarkerData.id m1 = MarkerData.id m2 →
    ∀ g, g ∈ cluster t ms → m2 ∉ g.

(** A [History] marker with id [i] at [(px, py)]. *)
Definition marker (i : string) (px py : float) : MarkerData.t :=
  MarkerData.mk i ("Echo: " +:+ i) "" History px py None.

(** A store for examples: the markers [A], [B], [C] of the
    non-transitivity example at addresses 1 to 3 and the input array at
    address 7; and the store left by one run of the pass on it. *)
Definition abc : list MarkerData.t :=
  [marker "A" 0 0; marker "B" 10 0; marker "C" 20 0].

Definition abc_store : store :=
  {[ 1%positive := CMarker (marker "A" 0 0);
     2%positive := CMarker (marker "B" 10 0);
     3%positive := CMarker (marker "C" 20 0);
     7%positive := CArray [1; 2; 3]%positive ]}.

Definition abc_store_after : store :=
  match cluster_store 12 7%positive abc_store with
  | Some (_, h') => h'
  | None => abc_store
  end.

(** ** Facts about numbers *)

Section Numbers.
Implicit Types (d f : float) (u v : spec_float).

Lemma SFcompare_Lt_Gt u v : SFcompare u v = Some Lt → SFcompare v u = Some Gt.
Proof.
  destruct u as [su|su| |su mu eu], v as [sv|sv| |sv mv ev]; simpl;
    try destruct su; try destruct sv; try done.
  all: rewrite (Z.compare_antisym eu ev).
  all: destruct (eu ?= ev)%Z; simpl; try done.
  all: assert (Pos.compare_cont Eq mv mu
               = CompOpp (Pos.compare_cont Eq mu mv)) as ->
         by (symmetry; apply (Pos.compare_cont_antisym mu mv Eq)).
  all: by destruct (Pos.compare_cont Eq mu mv).
Qed.

(** [t <= d] excludes [d < t]. *)
Lemma leb_not_ltb t d : (t <=? d)%float = true → (d <? t)%float = false.
Proof.
  rewrite FloatAxioms.leb_spec, FloatAxioms.ltb_spec. unfold SFleb, SFltb.
  destruct (SFcompare (Prim2SF d) (Prim2SF t)) as [[]|] eqn:Hc; try done.
  by rewrite (SFcompare_Lt_Gt _ _ Hc).
Qed.

Lemma SFcompare_refl u : u ≠ S754_nan → SFcompare u u = Some Eq.
Proof.
  destruct u as [su|su| |su mu eu]; simpl; intros Hu; try done.
  - by destruct su.
  - rewrite Z.compare_refl.
    change (Pos.compare_cont Eq mu mu) with (mu ?= mu)%positive.
    rewrite Pos.compare_refl. by destruct su.
Qed.

Lemma is_nan_spec f : is_nan f = true ↔ Prim2SF f = S754_nan.
Proof.
  unfold is_nan. rewrite FloatAxioms.eqb_spec. unfold SFeqb. split.
  - intros H. destruct (Prim2SF f) eqn:Hf; [..|done|];
      by rewrite SFcompare_refl in H.
  - by intros ->.
Qed.

(** A [NaN] is below nothing. *)
Lemma nan_not_ltb d t : is_nan d = true → (d <? t)%float = false.
Proof. rewrite is_nan_spec, FloatAxioms.ltb_spec. by intros ->. Qed.

Lemma sub_nan_l d f : is_nan d = true → is_nan (d - f) = true.
Proof. rewrite !is_nan_spec, FloatAxioms.sub_spec. by intros ->. Qed.

Lemma sub_nan_r d f : is_nan f = true → is_nan (d - f) = true.
Proof.
  rewrite !is_nan_spec, FloatAxioms.sub_spec. intros ->.
  by destruct (Prim2SF d) as [[]|[]| |].
Qed.

Lemma pow_2_nan d : is_nan d = true → is_nan (Math_pow_2 d) = true.
Proof. unfold Math_pow_2. rewrite !is_nan_spec, FloatAxioms.mul_spec. by intros ->. Qed.

Lemma add_nan_l d f : is_nan d = true → is_nan (d + f) = true.
Proof. rewrite !is_nan_spec, FloatAxioms.add_spec. by intros ->. Qed.

Lemma add_nan_r d f : is_nan f = true → is_nan (d + f) = true.
Proof.
  rewrite !is_nan_spec, FloatAxioms.add_spec. intros ->.
  by destruct (Prim2SF d) as [[]|[]| |].
Qed.

Lemma sqrt_nan d : is_nan d = true → is_nan (PrimFloat.sqrt d) = true.
Proof. rewrite !is_nan_spec, FloatAxioms.sqrt_spec. by intros ->. Qed.

(** A marker with a [NaN] coordinate is at distance [NaN] from every
    marker, whichever side of the subtraction it is on. *)
Lemma dist_nan_l m m' : nan_placed m → is_nan (dist m m') = true.
Proof.
  intros [H|H]; unfold dist; apply sqrt_nan.
  - by apply add_nan_l, pow_2_nan, sub_nan_l.
  - by apply add_nan_r, pow_2_nan, sub_nan_l.
Qed.

Lemma dist_nan_r m m' : nan_placed m → is_nan (dist m' m) = true.
Proof.
  intros [H|H]; unfold dist; apply sqrt_nan.
  - by apply add_nan_l, pow_2_nan, sub_nan_r.
  - by apply add_nan_r, pow_2_nan, sub_nan_r.
Qed.
End Numbers.

(** ** Sets of ids *)

Lemma elem_of_ids (m : MarkerData.t) l : m ∈ l → MarkerData.id m ∈ ids l.
Proof.
  intros Hm. unfold ids. apply elem_of_list_to_set, list_elem_of_fmap.
  eauto.
Qed.

Lemma ids_elem_of i (l : list MarkerData.t) : i ∈ ids l → ∃ m, m ∈ l ∧ MarkerData.id m = i.
Proof.
  unfold ids. rewrite elem_of_list_to_set, list_elem_of_fmap.
  intros (m & -> & Hm). eauto.
Qed.

Lemma ids_app (l1 l2 : list MarkerData.t) : ids (l1 ++ l2) = ids l1 ∪ ids l2.
Proof. unfold ids. by rewrite fmap_app, list_to_set_app_L. Qed.

Lemma ids_cons (m : MarkerData.t) l : ids (m :: l) = {[MarkerData.id m]} ∪ ids l.
Proof. reflexivity. Qed.

Lemma ids_nil : ids [] = ∅.
Proof. reflexivity. Qed.

(** In a list with pairwise distinct ids a marker is known by its id. *)
Lemma NoDup_ids_inj (l : list MarkerData.t) m m' :
  NoDup (MarkerData.id <$> l) → m ∈ l → m' ∈ l →
  MarkerData.id m = MarkerData.id m' → m = m'.
Proof.
  intros Hnd [i Hi]%list_elem_of_lookup [j Hj]%list_elem_of_lookup Heq.
  assert (i = j) as ->; [|congruence].
  eapply (NoDup_lookup _ _ _ (MarkerData.id m)); [exact Hnd|..].
  - by rewrite list_lookup_fmap, Hi.
  - by rewrite list_lookup_fmap, Hj, Heq.
Qed.

(** ** The clustering pass itself *)

Section Pass.
Variable t : float.
Variable ms : list MarkerData.t.

Lemma inner_loop m1 l g used :
  foldl (inner_step t m1) (g, used) l
  = (g ++ pick t m1 used l, ids (pick t m1 used l) ∪ used).
Proof.
  revert g used. induction l as [|m2 l IH]; intros g used; simpl.
  - rewrite app_nil_r, ids_nil. f_equal. set_solver.
  - destruct (decide (MarkerData.id m2 ∈ used)) as [Hin|Hin]; [apply IH|].
    destruct (dist m1 m2 <? t)%float; [|apply IH].
    rewrite IH, <- app_assoc, ids_cons. simpl. f_equal. set_solver.
Qed.

Lemma outer_loop l res used :
  foldl (outer_step t ms) (res, used) l
  = (res ++ groups t ms used l, ids (concat (groups t ms used l)) ∪ used).
Proof.
  revert res used. induction l as [|m1 l IH]; intros res used; simpl.
  - rewrite app_nil_r, ids_nil. f_equal. set_solver.
  - destruct (decide (MarkerData.id m1 ∈ used)) as [Hin|Hin]; [apply IH|].
    rewrite inner_loop, IH, <- app_assoc. simpl. f_equal.
    rewrite ids_cons, ids_app. set_solver.
Qed.

Lemma cluster_groups : cluster t ms = groups t ms ∅ ms.
Proof. unfold cluster. rewrite outer_loop. reflexivity. Qed.
End Pass.

(** ** What one inner loop picks *)

Section Pick.
Variable t : float.
Implicit Types (m a : MarkerData.t) (l : list MarkerData.t)
  (used : gset string).

Lemma pick_sublist m1 used l : pick t m1 used l `sublist_of` l.
Proof.
  revert used. induction l as [|m2 l IH]; intros used; simpl; [done|].
  repeat case_match; try by apply sublist_cons.
  by apply sublist_skip.
Qed.

Lemma pick_elem_of m1 used l m : m ∈ pick t m1 used l → m ∈ l.
Proof. intros Hm. eapply elem_of_sublist, pick_sublist. exact Hm. Qed.

Lemma pick_within m1 used l m :
  m ∈ pick t m1 used l → (dist m1 m <? t)%float = true.
Proof.
  revert used. induction l as [|m2 l IH]; intros used; simpl.
  - by intros ?%elem_of_nil.
  - destruct (decide _); [by apply IH|].
    destruct (dist m1 m2 <? t)%float eqn:Hd; [|by apply IH].
    intros [->|Hm]%elem_of_cons; [done|by eapply IH].
Qed.

Lemma pick_unused m1 used l m :
  m ∈ pick t m1 used l → MarkerData.id m ∉ used.
Proof.
  revert used. induction l as [|m2 l IH]; intros used; simpl.
  - by intros ?%elem_of_nil.
  - destruct (decide _); [by apply IH|].
    destruct (dist m1 m2 <? t)%float; [|by apply IH].
    intros [->|Hm]%elem_of_cons; [done|].
    apply IH in Hm. set_solver.
Qed.

Lemma pick_NoDup_ids m1 used l :
  NoDup (MarkerData.id <$> pick t m1 used l).
Proof.
  revert used. induction l as [|m2 l IH]; intros used; simpl.
  - constructor.
  - destruct (decide _); [by apply IH|].
    destruct (dist m1 m2 <? t)%float; [|by apply IH].
    simpl. constructor; [|by apply IH].
    intros (m & Heq & Hm%pick_unused)%list_elem_of_fmap.
    rewrite <- Heq in Hm. set_solver.
Qed.

(** Markers whose ids are already claimed are passed over. *)
Lemma pick_skip m1 used l1 l2 :
  (∀ m, m ∈ l1 → MarkerData.id m ∈ used) →
  pick t m1 used (l1 ++ l2) = pick t m1 used l2.
Proof.
  induction l1 as [|m l1 IH]; intros Hl1; simpl; [done|].
  rewrite decide_True by (apply Hl1; left).
  apply IH. intros m' Hm'. apply Hl1. by right.
Qed.

(** Nothing is picked exactly when no unclaimed marker is within the
    threshold of [m1]. *)
Lemma pick_nil_iff m1 used l :
  pick t m1 used l = [] ↔
  ∀ m2, m2 ∈ l → MarkerData.id m2 ∉ used → (dist m1 m2 <? t)%float = false.
Proof.
  induction l as [|m l IH]; simpl.
  - split; [|done]. by intros _ m2 ?%elem_of_nil.
  - destruct (decide (MarkerData.id m ∈ used)) as [Hin|Hin].
    + rewrite IH. split.
      * intros H m2 [->|Hm2]%elem_of_cons Hu; [done|by apply H].
      * intros H m2 Hm2. apply H. by right.
    + destruct (dist m1 m <? t)%float eqn:Hd.
      * split; [done|]. intros H.
        specialize (H m (list_elem_of_here _ _) Hin). congruence.
      * rewrite IH. split.
        -- intros H m2 [->|Hm2]%elem_of_cons Hu; [done|by apply H].
        -- intros H m2 Hm2. apply H. by right.
Qed.
End Pick.

(** ** What the outer loop appends *)

Section Groups.
Variable t : float.
Variable ms : list MarkerData.t.
Implicit Types (m a : MarkerData.t) (l : list MarkerData.t)
  (used : gset string) (g : list MarkerData.t)
  (out : list (list MarkerData.t)).

Lemma groups_nonempty used l : Forall (λ g, g ≠ []) (groups t ms used l).
Proof.
  revert used. induction l as [|m l IH]; intros used; simpl; [constructor|].
  destruct (decide _); [apply IH|]. constructor; [done|apply IH].
Qed.

(** Every member of a group comes from the list the loops run over. *)
Lemma groups_elem_of used l m :
  m ∈ concat (groups t ms used l) → m ∈ l ∨ m ∈ ms.
Proof.
  revert used. induction l as [|m1 l IH]; intros used; simpl.
  - by intros ?%elem_of_nil.
  - destruct (decide _).
    + intros [?|?]%IH; [left; by right|by right].
    + simpl. intros [->|[Hm|Hm]%elem_of_app]%elem_of_cons.
      * left; left.
      * right. by eapply pick_elem_of.
      * apply IH in Hm as [?|?]; [left; by right|by right].
Qed.

(** Ids already claimed when the loop starts are never claimed again. *)
Lemma groups_unused used l m :
  m ∈ concat (groups t ms used l) → MarkerData.id m ∉ used.
Proof.
  revert used. induction l as [|m1 l IH]; intros used; simpl.
  - by intros ?%elem_of_nil.
  - destruct (decide _); [apply IH|].
    simpl. intros [->|[Hm|Hm]%elem_of_app]%elem_of_cons; [done|..].
    + apply pick_unused in Hm. set_solver.
    + apply IH in Hm. set_solver.
Qed.

(** No id is claimed twice. *)
Lemma groups_NoDup_ids used l :
  NoDup (MarkerData.id <$> concat (groups t ms used l)).
Proof.
  revert used. induction l as [|m1 l IH]; intros used; simpl.
  - constructor.
  - destruct (decide _) as [|Hnew]; [apply IH|].
    simpl. rewrite fmap_app. constructor.
    + rewrite <- fmap_app. intros (m & Heq & Hm)%list_elem_of_fmap.
      apply elem_of_app in Hm as [Hm|Hm].
      * apply pick_unused in Hm. set_solver.
      * apply groups_unused in Hm. set_solver.
    + apply NoDup_app. split_and!; [apply pick_NoDup_ids| |apply IH].
      intros i (m & -> & Hm)%list_elem_of_fmap
               (m' & Heq & Hm')%list_elem_of_fmap.
      apply groups_unused in Hm'. apply elem_of_ids in Hm.
      rewrite Heq in Hm. set_solver.
Qed.

(** Every id met by the outer loop is claimed when it ends. *)
Lemma groups_covers used l m :
  m ∈ l → MarkerData.id m ∈ ids (concat (groups t ms used l)) ∪ used.
Proof.
  revert used. induction l as [|m1 l IH]; intros used; simpl.
  - by intros ?%elem_of_nil.
  - destruct (decide _) as [Hold|Hnew].
    + intros [->|Hm]%elem_of_cons; [set_solver|by apply IH].
    + simpl. rewrite ids_cons, ids_app.
      intros [->|Hm]%elem_of_cons; [set_solver|].
      apply (IH (ids (pick t m1 ({[MarkerData.id m1]} ∪ used) ms)
                   ∪ ({[MarkerData.id m1]} ∪ used))) in Hm.
      set_solver.
Qed.

(** One anchor per group, and the anchors in the order of the list. *)
Lemma groups_anchors_length used l :
  length (anchors (groups t ms used l)) = length (groups t ms used l).
Proof.
  revert used. induction l as [|m1 l IH]; intros used; simpl; [done|].
  destruct (decide _); [apply IH|]. unfold anchors in *. simpl.
  by rewrite IH.
Qed.

Lemma groups_anchors_sublist used l :
  anchors (groups t ms used l) `sublist_of` l.
Proof.
  revert used. induction l as [|m1 l IH]; intros used; simpl; [done|].
  destruct (decide _); [by apply sublist_cons|].
  unfold anchors in *. simpl. by apply sublist_skip.
Qed.

(** The step of the outer loop that made a given group: the groups
    before it are those of the markers before its anchor, and [claimed]
    is the [used] set at the time the anchor is reached. *)
Lemma groups_split used l out1 g out2 :
  groups t ms used l = out1 ++ g :: out2 →
  ∃ l1 a l2 claimed,
    l = l1 ++ a :: l2
    ∧ claimed = ids (concat out1) ∪ used
    ∧ out1 = groups t ms used l1
    ∧ (∀ m, m ∈ l1 → MarkerData.id m ∈ claimed)
    ∧ (MarkerData.id a ∉ claimed)
    ∧ g = a :: pick t a ({[MarkerData.id a]} ∪ claimed) ms.
Proof.
  revert used out1. induction l as [|m1 l IH]; intros used out1; simpl.
  - by intros ?%app_cons_not_nil.
  - destruct (decide _) as [Hold|Hnew].
    + intros H.
      apply IH in H as (l1 & a & l2 & U & -> & -> & Hout & Hl1 & Ha & ->).
      exists (m1 :: l1), a, l2, (ids (concat out1) ∪ used).
      split_and!; try done.
      * simpl. by rewrite decide_True.
      * intros m [->|Hm]%elem_of_cons; [set_solver|by apply Hl1].
    + destruct out1 as [|g0 out1]; simpl.
      * intros [= <- <-]. exists [], m1, l, used.
        split_and!; try done.
        -- rewrite ids_nil. set_solver.
        -- by intros m ?%elem_of_nil.
      * intros [= <- H].
        apply IH in H as (l1 & a & l2 & U & -> & -> & Hout & Hl1 & Ha & ->).
        set (p := pick t m1 ({[MarkerData.id m1]} ∪ used) ms) in *.
        exists (m1 :: l1), a, l2,
          (ids (concat out1) ∪ (ids p ∪ ({[MarkerData.id m1]} ∪ used))).
        split_and!; try done.
        -- change (concat ((m1 :: p) :: out1)) with ((m1 :: p) ++ concat out1).
           rewrite ids_app, ids_cons. set_solver.
        -- simpl. rewrite decide_False by done. by f_equal.
        -- intros m [->|Hm]%elem_of_cons; [set_solver|by apply Hl1].
Qed.
End Groups.

(** ** Order in a duplicate-free list *)

Section Order.
Implicit Types (l k input : list MarkerData.t).

Lemma sublist_in_input_order l input :
  l `sublist_of` input → NoDup input → in_input_order input l.
Proof.
  induction 1 as [|x l input Hsub IH|x l input Hsub IH];
    intros Hnd p q m m' i j Hpq Hp Hq Hi Hj.
  - by rewrite lookup_nil in Hp.
  - apply NoDup_cons in Hnd as [Hx Hnd].
    assert (m' ∈ input) as Hm'.
    { destruct q as [|q]; [lia|]. simpl in Hq.
      eapply elem_of_sublist; [|exact Hsub]. by eapply list_elem_of_lookup_2. }
    destruct j as [|j]; [simpl in Hj; congruence|].
    destruct p as [|p]; simpl in Hp.
    + injection Hp as <-. destruct i as [|i]; [lia|]. simpl in Hi.
      apply list_elem_of_lookup_2 in Hi. done.
    + assert (m ∈ input) as Hm.
      { eapply elem_of_sublist; [|exact Hsub].
        by eapply list_elem_of_lookup_2. }
      destruct i as [|i]; [simpl in Hi; congruence|].
      destruct q as [|q]; [lia|]. simpl in *.
      apply -> Nat.succ_lt_mono.
      eapply (IH Hnd p q); eauto with lia.
  - apply NoDup_cons in Hnd as [Hx Hnd].
    assert (m ∈ input) as Hm.
    { eapply elem_of_sublist; [|exact Hsub]. by eapply list_elem_of_lookup_2. }
    assert (m' ∈ input) as Hm'.
    { eapply elem_of_sublist; [|exact Hsub]. by eapply list_elem_of_lookup_2. }
    destruct i as [|i]; [simpl in Hi; congruence|].
    destruct j as [|j]; [simpl in Hj; congruence|]. simpl in *.
    apply -> Nat.succ_lt_mono. eapply (IH Hnd p q); eauto.
Qed.

Lemma elem_of_concat (out : list (list MarkerData.t)) m :
  m ∈ concat out ↔ ∃ g, m ∈ g ∧ g ∈ out.
Proof.
  induction out as [|g0 out IH]; simpl.
  - split; [by intros ?%elem_of_nil|]. by intros (g & _ & ?%elem_of_nil).
  - rewrite elem_of_app, IH. split.
    + intros [?|(g & ? & ?)]; [exists g0|exists g]; split; try done.
      * left.
      * by right.
    + intros (g & Hm & [->|Hg]%elem_of_cons); [by left|right; eauto].
Qed.

(** When no group is empty the anchors are position by position the
    first members of the groups. *)
Lemma anchors_lookup (out : list (list MarkerData.t)) p g a :
  Forall (λ g, g ≠ []) out →
  out !! p = Some g → head g = Some a → anchors out !! p = Some a.
Proof.
  intros Hne. revert p. induction Hne as [|g0 out Hg0 Hne IH]; intros p.
  - by rewrite lookup_nil.
  - unfold anchors in *. destruct g0 as [|a0 g0]; [done|]. simpl.
    destruct p as [|p]; simpl; [by intros [= <-] [= <-]|]. apply IH.
Qed.

(** In a duplicate-free concatenation a member lies in one block. *)
Lemma NoDup_concat_block (out : list (list MarkerData.t)) i j g g' m :
  NoDup (concat out) →
  out !! i = Some g → out !! j = Some g' → m ∈ g → m ∈ g' → i = j.
Proof.
  revert i j. induction out as [|g0 out IH]; intros i j Hnd Hi Hj Hg Hg'.
  - by rewrite lookup_nil in Hi.
  - simpl in Hnd. apply NoDup_app in Hnd as (_ & Hdisj & Hnd).
    destruct i as [|i], j as [|j]; simpl in *; simplify_eq; try done.
    + exfalso. eapply Hdisj; [exact Hg|].
      apply elem_of_concat. exists g'. split; [done|].
      by eapply list_elem_of_lookup_2.
    + exfalso. eapply Hdisj; [exact Hg'|].
      apply elem_of_concat. exists g. split; [done|].
      by eapply list_elem_of_lookup_2.
    + f_equal. by eapply IH.
Qed.
End Order.

(** ** The groups returned by the pass *)

Section Output.
Variable t : float.
Variable ms : list MarkerData.t.
Implicit Types (m a : MarkerData.t) (g : list MarkerData.t)
  (out : list (list MarkerData.t)).

Lemma cluster_nonempty : Forall (λ g, g ≠ []) (cluster t ms).
Proof. rewrite cluster_groups. apply groups_nonempty. Qed.

Lemma cluster_elem_of m : m ∈ concat (cluster t ms) → m ∈ ms.
Proof. rewrite cluster_groups. by intros [?|?]%groups_elem_of. Qed.

Lemma cluster_NoDup_ids : NoDup (MarkerData.id <$> concat (cluster t ms)).
Proof. rewrite cluster_groups. apply groups_NoDup_ids. Qed.

Lemma cluster_ids : ids (concat (cluster t ms)) = ids ms.
Proof.
  apply set_eq. intros i. split.
  - intros (m & Hm & <-)%ids_elem_of. by apply elem_of_ids, cluster_elem_of.
  - intros (m & Hm & <-)%ids_elem_of. rewrite cluster_groups.
    apply (groups_covers t ms ∅) in Hm. set_solver.
Qed.

(** The step that made a group of the output: the anchor [a] is reached
    with exactly the ids of the earlier groups claimed, all markers before
    it among them, and the group is [a] followed by what the inner loop
    picks. *)
Lemma cluster_split out1 g out2 :
  cluster t ms = out1 ++ g :: out2 →
  ∃ l1 a l2,
    ms = l1 ++ a :: l2
    ∧ (∀ m, m ∈ l1 → MarkerData.id m ∈ ids (concat out1))
    ∧ (MarkerData.id a ∉ ids (concat out1))
    ∧ g = a :: pick t a ({[MarkerData.id a]} ∪ ids (concat out1)) ms.
Proof.
  rewrite cluster_groups.
  intros (l1 & a & l2 & U & Hms & HU & _ & Hl1 & Ha & Hg)%groups_split.
  assert (U = ids (concat out1)) as -> by set_solver.
  by exists l1, a, l2.
Qed.

(** The members picked for an anchor all come after it in the input. *)
Lemma cluster_split_after out1 g out2 :
  cluster t ms = out1 ++ g :: out2 →
  ∃ l1 a l2 rest,
    ms = l1 ++ a :: l2 ∧ g = a :: rest ∧ rest `sublist_of` l2.
Proof.
  intros (l1 & a & l2 & Hms & Hl1 & Ha & Hg)%cluster_split.
  exists l1, a, l2, (pick t a ({[MarkerData.id a]} ∪ ids (concat out1)) l2).
  split_and!; [done| |apply pick_sublist].
  rewrite Hg. f_equal. rewrite Hms at 1.
  rewrite (cons_middle a l1 l2), app_assoc. apply pick_skip.
  intros m [Hm|Hm]%elem_of_app.
  - apply Hl1 in Hm. set_solver.
  - apply list_elem_of_singleton in Hm as ->. set_solver.
Qed.

Lemma cluster_group_sublist g : g ∈ cluster t ms → g `sublist_of` ms.
Proof.
  intros (out1 & out2 & Hout)%list_elem_of_split.
  apply cluster_split_after in Hout as (l1 & a & l2 & rest & -> & -> & Hs).
  apply sublist_inserts_l. by apply sublist_skip.
Qed.

Lemma cluster_anchors_sublist : anchors (cluster t ms) `sublist_of` ms.
Proof. rewrite cluster_groups. apply groups_anchors_sublist. Qed.

Lemma cluster_anchors_length :
  length (anchors (cluster t ms)) = length (cluster t ms).
Proof. rewrite cluster_groups. apply groups_anchors_length. Qed.

Lemma cluster_group_within g a rest :
  g ∈ cluster t ms → g = a :: rest →
  Forall (λ m, (dist a m <? t)%float = true) rest.
Proof.
  intros (out1 & out2 & Hout)%list_elem_of_split Hg.
  apply cluster_split in Hout as (l1 & a' & l2 & _ & _ & _ & Hg').
  rewrite Hg in Hg'. injection Hg' as <- ->.
  apply Forall_forall. intros m Hm. by eapply pick_within.
Qed.

(** The output never holds more markers than the input. *)
Lemma cluster_concat_length : length (concat (cluster t ms)) ≤ length ms.
Proof.
  apply submseteq_length, NoDup_submseteq.
  - eapply NoDup_fmap_1, cluster_NoDup_ids.
  - apply cluster_elem_of.
Qed.

(** With pairwise distinct ids the output holds every input marker
    once. *)
Lemma cluster_Permutation :
  NoDup (MarkerData.id <$> ms) → concat (cluster t ms) ≡ₚ ms.
Proof.
  intros Hnd. apply NoDup_Permutation.
  - eapply NoDup_fmap_1, cluster_NoDup_ids.
  - by eapply NoDup_fmap_1.
  - intros m. split; [apply cluster_elem_of|]. intros Hm.
    assert (MarkerData.id m ∈ ids (concat (cluster t ms))) as Hid
      by (rewrite cluster_ids; by apply elem_of_ids).
    apply ids_elem_of in Hid as (m' & Hm' & Heq).
    assert (m' = m) as <-; [|done].
    eapply NoDup_ids_inj; [exact Hnd|by apply cluster_elem_of|done..].
Qed.
End Output.

(** ** The pass over a store computes the pure pass *)

Section Store.
Variable t : float.
Implicit Types (h : store) (l : loc).

Lemma read_markers_Forall2 h ls (ms : list MarkerData.t) :
  mapM (read_marker h) ls = Some ms ↔ Forall2 (marker_at h) ls ms.
Proof.
  rewrite mapM_Some.
  split; intros H; eapply Forall2_impl; [exact H| |exact H|];
    intros l m; unfold read_marker, marker_at;
    destruct (h !! l) as [[]|]; naive_solver.
Qed.

Lemma read_marker_array_inv h hm (ms : list MarkerData.t) :
  read_marker_array h hm = Some ms ↔
  ∃ ls, h !! hm = Some (CArray ls) ∧ Forall2 (marker_at h) ls ms.
Proof.
  unfold read_marker_array, read_array. split.
  - destruct (h !! hm) as [[]|]; simpl; try done.
    intros ?%read_markers_Forall2. eauto.
  - intros (ls & -> & ?%read_markers_Forall2). done.
Qed.

Lemma marker_at_weaken h h' l m : h ⊆ h' → marker_at h l m → marker_at h' l m.
Proof. unfold marker_at. intros Hsub Hl. by eapply lookup_weaken. Qed.

Lemma insert_pair_again h a b (x y x0 y0 : cell) :
  a ≠ b →
  <[a := x]> (<[b := y]> (<[a := x0]> (<[b := y0]> h)))
  = <[a := x]> (<[b := y]> h).
Proof.
  intros Hab. apply map_eq. intros i.
  destruct (decide (i = a)) as [->|]; [by rewrite !lookup_insert_eq|].
  rewrite !(lookup_insert_ne _ a) by done.
  destruct (decide (i = b)) as [->|]; [by rewrite !lookup_insert_eq|].
  by rewrite !lookup_insert_ne.
Qed.

(** One run of the inner loop writes the cells of [used] and of the
    current group, and nothing else. *)
Lemma inner_forEach h0 used cg m1 o1 ls (ms : list MarkerData.t) :
  Forall2 (marker_at h0) ls ms →
  marker_at h0 m1 o1 →
  h0 !! used = None → h0 !! cg = None → used ≠ cg →
  ∀ h U G,
    h0 ⊆ h → h !! used = Some (CSet U) → h !! cg = Some (CArray G) →
    ∃ Gadd,
      Forall2 (marker_at h0) Gadd (pick t o1 U ms)
      ∧ forEach ls (inner_body t used cg m1) h
        = Some ((), <[used := CSet (ids (pick t o1 U ms) ∪ U)]>
                      (<[cg := CArray (G ++ Gadd)]> h)).
Proof.
  intros Hls Hm1 Hu0 Hc0 Hne.
  induction Hls as [|l m ls ms Hl Hls IH]; intros h U G Hsub Hu Hc; simpl.
  - exists []. split; [constructor|]. unfold ret.
    rewrite app_nil_r, ids_nil, (left_id_L ∅ (∪)).
    by rewrite (insert_id h cg), insert_id.
  - pose proof (marker_at_weaken _ _ _ _ Hsub Hl) as Hl'.
    pose proof (marker_at_weaken _ _ _ _ Hsub Hm1) as Hm1'.
    unfold marker_at in Hl', Hm1'.
    unfold bind at 1. unfold inner_body at 1.
    unfold bind, get_marker, set_has. rewrite Hl', Hu.
    destruct (decide (MarkerData.id m ∈ U)) as [Hin|Hin].
    { rewrite bool_decide_eq_true_2 by done. by apply IH. }
    rewrite bool_decide_eq_false_2 by done. rewrite Hm1'.
    destruct (dist o1 m <? t)%float; [|by apply IH].
    unfold array_push, set_add. rewrite Hc.
    rewrite lookup_insert_ne by done. rewrite Hu.
    destruct (IH (<[used := CSet ({[MarkerData.id m]} ∪ U)]>
                    (<[cg := CArray (G ++ [l])]> h))
                 ({[MarkerData.id m]} ∪ U) (G ++ [l]))
      as (Gadd & HGadd & Hrun).
    + by do 2 (apply insert_subseteq_r; [done|]).
    + by rewrite lookup_insert_eq.
    + rewrite lookup_insert_ne by done. by rewrite lookup_insert_eq.
    + exists (l :: Gadd). split; [by constructor|].
      rewrite Hrun, insert_pair_again by done.
      rewrite <- app_assoc, ids_cons. simpl.
      set (p := pick t o1 _ ms).
      by assert (ids p ∪ ({[MarkerData.id m]} ∪ U)
                 = {[MarkerData.id m]} ∪ ids p ∪ U) as -> by set_solver.
Qed.

Lemma group_at_frame h0 h h' gl (g : list MarkerData.t) :
  h' !! gl = h !! gl → group_at h0 h gl g → group_at h0 h' gl g.
Proof. intros Heq (? & G & ? & ?). split; [done|]. exists G. by rewrite Heq. Qed.

(** The outer loop appends one fresh array for each group of the pure
    pass; the cells of the store [h0] it started from are left as they
    were. *)
Lemma outer_forEach h0 hm result used all_ls (all_ms : list MarkerData.t)
    ls (ms : list MarkerData.t) :
  h0 !! hm = Some (CArray all_ls) →
  Forall2 (marker_at h0) all_ls all_ms →
  Forall2 (marker_at h0) ls ms →
  h0 !! result = None → h0 !! used = None → result ≠ used →
  ∀ h U R res,
    h0 ⊆ h → h !! used = Some (CSet U) → h !! result = Some (CArray R) →
    Forall2 (λ gl g, gl ≠ result ∧ group_at h0 h gl g) R res →
    ∃ h' R',
      forEach ls (outer_body t hm result used) h = Some ((), h')
      ∧ h0 ⊆ h'
      ∧ h' !! result = Some (CArray (R ++ R'))
      ∧ Forall2 (λ gl g, gl ≠ result ∧ group_at h0 h' gl g)
          (R ++ R') (res ++ groups t all_ms U ms).
Proof.
  intros Hhm Hall Hls Hr0 Hu0 Hne.
  induction Hls as [|l m ls ms Hl Hls IH];
    intros h U R res Hsub Hu Hr HR; simpl.
  - exists h, []. rewrite !app_nil_r. by unfold ret.
  - pose proof (marker_at_weaken _ _ _ _ Hsub Hl) as Hl'.
    unfold marker_at in Hl'.
    unfold bind at 1. unfold outer_body at 1.
    unfold bind, get_marker, set_has. rewrite Hl', Hu.
    destruct (decide (MarkerData.id m ∈ U)) as [Hin|Hin].
    { rewrite bool_decide_eq_true_2 by done. by apply IH. }
    rewrite bool_decide_eq_false_2 by done.
    unfold alloc. set (cg := fresh (dom h)).
    assert (h !! cg = None) as Hcg by apply not_elem_of_dom, is_fresh.
    assert (h0 !! cg = None) as Hcg0 by by eapply lookup_weaken_None.
    assert (cg ≠ used) as Hcu by congruence.
    assert (cg ≠ result) as Hcr by congruence.
    unfold set_add. rewrite lookup_insert_ne by done. rewrite Hu.
    set (U1 := {[MarkerData.id m]} ∪ U).
    set (h2 := <[used := CSet U1]> (<[cg := CArray [l]]> h)).
    assert (h0 ⊆ h2) as Hsub2
      by by do 2 (apply insert_subseteq_r; [done|]).
    unfold get_array. rewrite (lookup_weaken _ _ _ _ Hhm Hsub2).
    destruct (inner_forEach h0 used cg l m all_ls all_ms Hall Hl Hu0 Hcg0
                ltac:(done) h2 U1 [l] Hsub2)
      as (Gadd & HGadd & Hrun).
    { unfold h2. by rewrite lookup_insert_eq. }
    { unfold h2. rewrite lookup_insert_ne by done.
      by rewrite lookup_insert_eq. }
    rewrite Hrun. set (p := pick t m U1 all_ms) in *.
    set (h3 := <[used := CSet (ids p ∪ U1)]>
                 (<[cg := CArray ([l] ++ Gadd)]> h2)).
    assert (∀ i, i ≠ used → i ≠ cg → h3 !! i = h !! i) as Hframe.
    { intros i ??. unfold h3, h2. by rewrite !lookup_insert_ne. }
    unfold array_push. rewrite Hframe, Hr by done.
    set (h4 := <[result := CArray (R ++ [cg])]> h3).
    destruct (IH h4 (ids p ∪ U1) (R ++ [cg]) (res ++ [m :: p]))
      as (h' & R' & Hrun' & Hsub' & Hr' & HR').
    + unfold h4, h3.
      by do 3 (apply insert_subseteq_r; [done|]).
    + unfold h4, h3. rewrite lookup_insert_ne by done.
      by rewrite lookup_insert_eq.
    + unfold h4. by rewrite lookup_insert_eq.
    + apply Forall2_app.
      * eapply Forall2_impl; [exact HR|]. intros gl g [Hglr Hg].
        split; [done|]. eapply group_at_frame; [|exact Hg].
        destruct Hg as (_ & G & HG & _).
        unfold h4. rewrite lookup_insert_ne by done.
        apply Hframe; congruence.
      * constructor; [|constructor]. split; [done|]. split; [done|].
        exists (l :: Gadd). split; [|by constructor].
        unfold h4, h3. rewrite lookup_insert_ne by done.
        rewrite lookup_insert_ne by done. by rewrite lookup_insert_eq.
    + exists h', (cg :: R'). split_and!; [done..| |].
      * by rewrite <- app_assoc in Hr'.
      * by rewrite <- !app_assoc in HR'.
Qed.

(** The pass returns a fresh array of fresh group arrays that hold the
    groups of the pure pass, and leaves the store it was given intact. *)
Lemma cluster_store_correct h hm (ms : list MarkerData.t) :
  read_marker_array h hm = Some ms →
  ∃ r h' R,
    cluster_store t hm h = Some (r, h')
    ∧ h ⊆ h'
    ∧ h !! r = None
    ∧ h' !! r = Some (CArray R)
    ∧ Forall2 (group_at h h') R (cluster t ms).
Proof.
  intros (ls & Hhm & Hls)%read_marker_array_inv.
  unfold cluster_store, bind, alloc.
  set (r := fresh (dom h)). set (h1 := <[r := CArray []]> h).
  set (u := fresh (dom h1)). set (h2 := <[u := CSet ∅]> h1).
  assert (h !! r = None) as Hr by apply not_elem_of_dom, is_fresh.
  assert (h1 !! u = None) as Hu1 by apply not_elem_of_dom, is_fresh.
  assert (h ⊆ h1) as Hsub1 by by apply insert_subseteq.
  assert (h !! u = None) as Hu by by eapply lookup_weaken_None.
  assert (r ≠ u) as Hru.
  { intros <-. unfold h1 in Hu1. by rewrite lookup_insert_eq in Hu1. }
  assert (h ⊆ h2) as Hsub2 by by do 2 (apply insert_subseteq_r; [done|]).
  unfold get_array. rewrite (lookup_weaken _ _ _ _ Hhm Hsub2).
  destruct (outer_forEach h hm r u ls ms ls ms Hhm Hls Hls Hr Hu Hru
              h2 ∅ [] [] Hsub2)
    as (h' & R & Hrun & Hsub' & Hr' & HR).
  - unfold h2. by rewrite lookup_insert_eq.
  - unfold h2, h1. rewrite lookup_insert_ne by done.
    by rewrite lookup_insert_eq.
  - constructor.
  - exists r, h', R. rewrite Hrun. unfold ret. split_and!; try done.
    rewrite cluster_groups. simpl in HR.
    eapply Forall2_impl; [exact HR|]. by intros gl g [_ ?].
Qed.

Lemma read_groups_of_group_at h h' r R (gs : list (list MarkerData.t)) :
  h ⊆ h' → h' !! r = Some (CArray R) → Forall2 (group_at h h') R gs →
  read_groups h' r = Some gs.
Proof.
  intros Hsub Hr HR. unfold read_groups, read_array. rewrite Hr. simpl.
  apply mapM_Some. eapply Forall2_impl; [exact HR|].
  intros gl g (_ & G & HG & Hg). apply read_marker_array_inv.
  exists G. split; [done|]. eapply Forall2_impl; [exact Hg|].
  intros l m. by apply marker_at_weaken.
Qed.

Lemma read_marker_array_weaken h h' hm (ms : list MarkerData.t) :
  h ⊆ h' → read_marker_array h hm = Some ms →
  read_marker_array h' hm = Some ms.
Proof.
  intros Hsub (ls & Hhm & Hls)%read_marker_array_inv.
  apply read_marker_array_inv. exists ls. split.
  - by eapply lookup_weaken.
  - eapply Forall2_impl; [exact Hls|]. intros l m. by apply marker_at_weaken.
Qed.

(** The pass never fails on a store that holds a list of markers. *)
Lemma cluster_store_runs h hm (ms : list MarkerData.t) :
  read_marker_array h hm = Some ms →
  ∃ r h', cluster_store t hm h = Some (r, h')
          ∧ read_groups h' r = Some (cluster t ms).
Proof.
  intros (r & h' & R & Hrun & Hsub & _ & Hr & HR)%cluster_store_correct.
  exists r, h'. split; [done|]. by eapply read_groups_of_group_at.
Qed.
End Store.

(** ** Properties of the pass *)

(** C1, as stated, fails: with two markers of one id, the second is in no
    group of the output. *)
Lemma partition_omits_shared_id :
  let ms := [marker "a" 0 0; marker "a" 50 50] in
  marker "a" 50 50 ∈ ms ∧ ∀ g, g ∈ cluster 12 ms → marker "a" 50 50 ∉ g.
Proof.
  split; [by right; left|]. intros g Hg.
  assert (cluster 12 [marker "a" 0 0; marker "a" 50 50]
          = [[marker "a" 0 0]]) as Hout by (vm_compute; reflexivity).
  rewrite Hout in Hg. apply list_elem_of_singleton in Hg as ->.
  intros Heq%list_elem_of_singleton.
  apply (f_equal (λ m, (MarkerData.x m =? 0)%float)) in Heq.
  vm_compute in Heq. discriminate.
Qed.

(** C1, amended: when the ids of the input markers are pairwise distinct,
    the pass returns non-empty groups whose concatenation is a
    rearrangement of the input, and each input marker lies in one group
    only. *)
Theorem cluster_partition t ms :
  NoDup (MarkerData.id <$> ms) →
  Forall (λ g, g ≠ []) (cluster t ms)
  ∧ concat (cluster t ms) ≡ₚ ms
  ∧ ∀ m, m ∈ ms →
      ∃ i g, cluster t ms !! i = Some g ∧ m ∈ g
        ∧ ∀ j g', cluster t ms !! j = Some g' → m ∈ g' → j = i.
Proof.
  intros Hnd. split_and!.
  - apply cluster_nonempty.
  - by apply cluster_Permutation.
  - intros m Hm.
    assert (m ∈ concat (cluster t ms)) as Hin
      by by rewrite (cluster_Permutation t ms Hnd).
    apply elem_of_concat in Hin as (g & Hg & [i Hi]%list_elem_of_lookup).
    exists i, g. split_and!; [done..|]. intros j g' Hj Hg'.
    eapply NoDup_concat_block; [|exact Hj|exact Hi|done..].
    eapply NoDup_fmap_1, cluster_NoDup_ids.
Qed.

Lemma cluster_partition_witness :
  let ms := [marker "A" 0 0; marker "B" 10 0; marker "C" 20 0] in
  NoDup (MarkerData.id <$> ms)
  ∧ Forall (λ g, g ≠ []) (cluster 12 ms)
  ∧ concat (cluster 12 ms) ≡ₚ ms
  ∧ ∀ m, m ∈ ms →
      ∃ i g, cluster 12 ms !! i = Some g ∧ m ∈ g
        ∧ ∀ j g', cluster 12 ms !! j = Some g' → m ∈ g' → j = i.
Proof.
  assert (NoDup (MarkerData.id <$>
            [marker "A" 0 0; marker "B" 10 0; marker "C" 20 0])) as Hnd
    by (apply (bool_decide_unpack _); vm_compute; exact I).
  split; [exact Hnd|]. exact (cluster_partition 12 _ Hnd).
Defined.

(** C2, as stated, fails in both directions.  The first group of two
    markers that are close to each other is not a singleton, although no
    marker had been claimed when its anchor was processed; and in the
    non-transitivity example the group of [C] is a singleton although [C]
    is within the threshold of [B], which the first group had claimed. *)
Lemma singleton_claim_fails :
  ¬ singleton_iff_clear_of_claimed 12 [marker "A" 0 0; marker "B" 1 1]
  ∧ ¬ singleton_iff_clear_of_claimed 12 abc.
Proof.
  split; intros H.
  - specialize (H [] [marker "A" 0 0; marker "B" 1 1] [] (marker "A" 0 0)).
    destruct H as [_ H]; [vm_compute; reflexivity|reflexivity|].
    discriminate H. by intros c ?%elem_of_nil.
  - specialize (H [[marker "A" 0 0; marker "B" 10 0]] [marker "C" 20 0] []
                  (marker "C" 20 0)).
    destruct H as [H _]; [vm_compute; reflexivity|reflexivity|].
    specialize (H eq_refl (marker "B" 10 0)).
    assert ((dist (marker "C" 20 0) (marker "B" 10 0) <? 12)%float = false)
      as Hfar by (apply H; right; left).
    vm_compute in Hfar. discriminate.
Qed.

(** C2, amended: a group of the output is a singleton exactly when, at
    the time its anchor is processed, no marker whose id is still
    unclaimed (the anchor's own id apart) is within the threshold of the
    anchor. *)
Theorem singleton_iff_no_unclaimed_near t ms out1 g out2 :
  cluster t ms = out1 ++ g :: out2 →
  ∃ a, head g = Some a ∧
    (length g = 1 ↔
     ∀ m2, m2 ∈ ms →
       MarkerData.id m2 ∉ ids (concat out1) →
       MarkerData.id m2 ≠ MarkerData.id a →
       (dist a m2 <? t)%float = false).
Proof.
  intros (l1 & a & l2 & Hms & Hl1 & Ha & ->)%cluster_split.
  exists a. split; [done|]. simpl.
  set (p := pick t a _ ms).
  transitivity (p = []).
  { destruct p; simpl; split; (done || lia). }
  unfold p. rewrite pick_nil_iff. split.
  - intros H m2 Hm2 Hu Hne. apply H; [done|set_solver].
  - intros H m2 Hm2 Hu. apply H; [done|set_solver..].
Qed.

Lemma singleton_iff_no_unclaimed_near_witness :
  let A := marker "A" 0 0 in
  let B := marker "B" 10 0 in
  let C := marker "C" 20 0 in
  cluster 12 [A; B; C] = [[A; B]] ++ [C] :: []
  ∧ ∃ a, head [C] = Some a ∧
      (length [C] = 1 ↔
       ∀ m2, m2 ∈ [A; B; C] →
         MarkerData.id m2 ∉ ids (concat [[A; B]]) →
         MarkerData.id m2 ≠ MarkerData.id a →
         (dist a m2 <? 12)%float = false).
Proof.
  intros A B C. split; [vm_compute; reflexivity|].
  apply (singleton_iff_no_unclaimed_near 12 [A; B; C] [[A; B]] [C] []).
  vm_compute. reflexivity.
Defined.

(** C3: for markers [A] at (0,0), [B] at (10,0) and [C] at (20,0), in
    that order and with threshold 12, the pass returns [[A,B],[C]] and not
    [[A,B,C]]: [B] is at distance 10 from the anchor [A], and [C] is at
    distance 10 from [B] but at distance 20 from the anchor. *)
Theorem anchor_relative_not_transitive (A B C : MarkerData.t) :
  MarkerData.x A = 0%float → MarkerData.y A = 0%float →
  MarkerData.x B = 10%float → MarkerData.y B = 0%float →
  MarkerData.x C = 20%float → MarkerData.y C = 0%float →
  MarkerData.id A ≠ MarkerData.id B →
  MarkerData.id A ≠ MarkerData.id C →
  MarkerData.id B ≠ MarkerData.id C →
  cluster 12 [A; B; C] = [[A; B]; [C]]
  ∧ cluster 12 [A; B; C] ≠ [[A; B; C]]
  ∧ dist A B = 10%float ∧ dist A C = 20%float ∧ dist B C = 10%float.
Proof.
  intros HAx HAy HBx HBy HCx HCy HAB HAC HBC.
  assert (dist A B = 10%float) as HdAB
    by (unfold dist; rewrite HAx, HAy, HBx, HBy; reflexivity).
  assert (dist A C = 20%float) as HdAC
    by (unfold dist; rewrite HAx, HAy, HCx, HCy; reflexivity).
  assert (dist B C = 10%float) as HdBC
    by (unfold dist; rewrite HBx, HBy, HCx, HCy; reflexivity).
  assert (cluster 12 [A; B; C] = [[A; B]; [C]]) as Hout.
  { rewrite cluster_groups. simpl.
    rewrite decide_False by set_solver. simpl.
    rewrite decide_True by set_solver.
    rewrite decide_False by set_solver. rewrite HdAB.
    change (10 <? 12)%float with true. cbv iota.
    rewrite decide_False by set_solver. rewrite HdAC.
    change (20 <? 12)%float with false. cbv iota.
    rewrite decide_True by (rewrite ids_cons; set_solver).
    rewrite decide_False by (rewrite ids_cons; set_solver). simpl.
    rewrite decide_True by (rewrite ids_cons; set_solver).
    rewrite decide_True by (rewrite ids_cons; set_solver).
    rewrite decide_True by (rewrite ids_cons; set_solver).
    reflexivity. }
  split_and!; try done. rewrite Hout. discriminate.
Qed.

Lemma anchor_relative_not_transitive_witness :
  let A := marker "A" 0 0 in
  let B := marker "B" 10 0 in
  let C := marker "C" 20 0 in
  cluster 12 [A; B; C] = [[A; B]; [C]]
  ∧ cluster 12 [A; B; C] ≠ [[A; B; C]]
  ∧ dist A B = 10%float ∧ dist A C = 20%float ∧ dist B C = 10%float.
Proof.
  intros A B C.
  apply (anchor_relative_not_transitive A B C); vm_compute; congruence.
Defined.

(** C4, as stated, fails: the threshold is applied to the rounded
    distance.  For [A] at (0.3, 0) and [M] at (12.11482120050913, 2.1),
    read as the nearest binary64 numbers as in JavaScript, the computed
    distance is 11.999999999999998, so [M] joins the group of [A]; the
    square of their Euclidean distance is above 144, so the distance
    itself is above 12. *)
Lemma rounded_distance_below_exact :
  let A := marker "A" 0.3 0 in
  let M := marker "M" 12.11482120050913 2.1 in
  cluster CLUSTER_THRESHOLD [A; M] = [[A; M]]
  ∧ dist A M = 11.999999999999998%float
  ∧ (144 < euclid_sq A M)%Q.
Proof. split_and!; vm_compute; reflexivity. Qed.

(** C4, amended: in every group returned for the threshold constant 12,
    each member after the anchor is at a computed distance below 12 from
    the anchor, the computed distance being the binary64 value of
    [Math.sqrt(Math.pow(dx, 2) + Math.pow(dy, 2))]; and a marker whose
    computed distance from the anchor is 12 or more is not among them. *)
Theorem members_within_threshold ms g a rest :
  g ∈ cluster CLUSTER_THRESHOLD ms → g = a :: rest →
  Forall (λ m,
    (PrimFloat.sqrt
       ((MarkerData.x a - MarkerData.x m) * (MarkerData.x a - MarkerData.x m)
        + (MarkerData.y a - MarkerData.y m) * (MarkerData.y a - MarkerData.y m))
     <? 12)%float = true) rest
  ∧ ∀ m,
      (12 <=? PrimFloat.sqrt
         ((MarkerData.x a - MarkerData.x m) * (MarkerData.x a - MarkerData.x m)
          + (MarkerData.y a - MarkerData.y m)
            * (MarkerData.y a - MarkerData.y m)))%float = true →
      m ∉ rest.
Proof.
  intros Hg Heq.
  pose proof (cluster_group_within CLUSTER_THRESHOLD ms g a rest Hg Heq)
    as Hall.
  split; [exact Hall|]. intros m Hfar Hm.
  rewrite Forall_forall in Hall. apply Hall in Hm.
  apply leb_not_ltb in Hfar. unfold CLUSTER_THRESHOLD, dist, Math_pow_2 in Hm.
  congruence.
Qed.

Lemma members_within_threshold_witness :
  let A := marker "A" 0 0 in
  let B := marker "B" 10 0 in
  let C := marker "C" 20 0 in
  [A; B] ∈ cluster CLUSTER_THRESHOLD [A; B; C] ∧ [A; B] = A :: [B]
  ∧ Forall (λ m,
      (PrimFloat.sqrt
         ((MarkerData.x A - MarkerData.x m) * (MarkerData.x A - MarkerData.x m)
          + (MarkerData.y A - MarkerData.y m)
            * (MarkerData.y A - MarkerData.y m))
       <? 12)%float = true) [B]
  ∧ ∀ m,
      (12 <=? PrimFloat.sqrt
         ((MarkerData.x A - MarkerData.x m) * (MarkerData.x A - MarkerData.x m)
          + (MarkerData.y A - MarkerData.y m)
            * (MarkerData.y A - MarkerData.y m)))%float = true →
      m ∉ [B].
Proof.
  intros A B C.
  assert ([A; B] ∈ cluster CLUSTER_THRESHOLD [A; B; C]) as Hg
    by (vm_compute; left).
  split_and!; [exact Hg|reflexivity|..];
    apply (members_within_threshold [A; B; C] [A; B] A [B] Hg eq_refl).
Defined.

(** C8: the marker list built by the memo and passed to the clustering
    pass has at most ten markers, one for each of the history entries at
    positions 1 to 10; so the groups it returns hold at most ten markers
    in all. *)
Theorem historyMarkers_bound Math_sin Math_cos history loading imageLoading :
  length (historyMarkers Math_sin Math_cos history) ≤ 10
  ∧ length (historyMarkers Math_sin Math_cos history)
    = min 10 (length history - 1)
  ∧ (clusters Math_sin Math_cos history loading imageLoading = []
     ∨ clusters Math_sin Math_cos history loading imageLoading
       = cluster CLUSTER_THRESHOLD (historyMarkers Math_sin Math_cos history))
  ∧ length (concat (clusters Math_sin Math_cos history loading imageLoading))
    ≤ 10.
Proof.
  assert (length (historyMarkers Math_sin Math_cos history)
          = min 10 (length history - 1)) as Hlen.
  { unfold historyMarkers, slice_1_11.
    by rewrite length_imap, length_take, length_drop. }
  split_and!; [lia|done|..]; unfold clusters.
  - destruct (_ || _ || _); [by left|by right].
  - destruct (_ || _ || _); [simpl; lia|].
    etrans; [apply cluster_concat_length|lia].
Qed.

(** C9: when the ids of the input markers are pairwise distinct, every
    group lists its members in input order, so that its anchor is the
    earliest of them in the input, and the groups are in the input order
    of their anchors. *)
Theorem output_order t ms :
  NoDup (MarkerData.id <$> ms) →
  (∀ g a m i j,
     g ∈ cluster t ms → head g = Some a → m ∈ g →
     ms !! i = Some a → ms !! j = Some m → i ≤ j)
  ∧ Forall (in_input_order ms) (cluster t ms)
  ∧ (∀ p q g g' a a' i j,
       p < q → cluster t ms !! p = Some g → cluster t ms !! q = Some g' →
       head g = Some a → head g' = Some a' →
       ms !! i = Some a → ms !! j = Some a' → i < j).
Proof.
  intros Hids. assert (NoDup ms) as Hnd by by eapply NoDup_fmap_1.
  assert (Forall (in_input_order ms) (cluster t ms)) as Hgroups.
  { apply Forall_forall. intros g Hg.
    apply sublist_in_input_order; [|done].
    by apply (cluster_group_sublist t). }
  split_and!; [|done|].
  - intros g a m i j Hg Ha Hm Hi Hj.
    rewrite Forall_forall in Hgroups. specialize (Hgroups g Hg).
    apply list_elem_of_lookup in Hm as [q Hq].
    destruct q as [|q].
    + destruct g; simplify_eq/=.
      by rewrite (NoDup_lookup _ _ _ _ Hnd Hi Hj).
    + apply Nat.lt_le_incl.
      eapply (Hgroups 0 (S q) a m); eauto with lia.
      by destruct g; simplify_eq/=.
  - intros p q g g' a a' i j Hpq Hp Hq Ha Ha' Hi Hj.
    pose proof (cluster_nonempty t ms) as Hne.
    eapply (sublist_in_input_order _ _ (cluster_anchors_sublist t ms) Hnd
              p q a a'); eauto using anchors_lookup.
Qed.

Lemma output_order_witness :
  let ms := [marker "A" 0 0; marker "B" 10 0; marker "C" 20 0] in
  NoDup (MarkerData.id <$> ms)
  ∧ (∀ g a m i j,
       g ∈ cluster 12 ms → head g = Some a → m ∈ g →
       ms !! i = Some a → ms !! j = Some m → i ≤ j)
  ∧ Forall (in_input_order ms) (cluster 12 ms)
  ∧ (∀ p q g g' a a' i j,
       p < q → cluster 12 ms !! p = Some g → cluster 12 ms !! q = Some g' →
       head g = Some a → head g' = Some a' →
       ms !! i = Some a → ms !! j = Some a' → i < j).
Proof.
  assert (NoDup (MarkerData.id <$>
            [marker "A" 0 0; marker "B" 10 0; marker "C" 20 0])) as Hnd
    by (apply (bool_decide_unpack _); vm_compute; exact I).
  split; [exact Hnd|]. exact (output_order 12 _ Hnd).
Defined.

(** C10, as stated, fails: the later of two markers with one id is the
    one that is kept when it is close to an earlier anchor and the earlier
    marker is not. *)
Lemma later_duplicate_kept :
  ¬ later_duplicate_omitted 12
      [marker "a" 0 0; marker "m" 50 50; marker "m" 1 1].
Proof.
  intros H.
  apply (H [marker "a" 0 0] (marker "m" 50 50) [] (marker "m" 1 1) []
           eq_refl eq_refl [marker "a" 0 0; marker "m" 1 1]).
  - vm_compute. left.
  - right; left.
Qed.

(** C10, amended: the output holds exactly one marker for each id of the
    input, taken from the input; so of two different markers with one id
    at most one is in a group (not always the earlier one), and the output
    is a rearrangement of the input exactly when the ids are pairwise
    distinct. *)
Theorem one_marker_per_id t ms :
  NoDup (MarkerData.id <$> concat (cluster t ms))
  ∧ ids (concat (cluster t ms)) = ids ms
  ∧ (∀ m, m ∈ concat (cluster t ms) → m ∈ ms)
  ∧ (∀ m m', m ∈ concat (cluster t ms) → m' ∈ concat (cluster t ms) →
       MarkerData.id m = MarkerData.id m' → m = m')
  ∧ length (concat (cluster t ms)) = size (ids ms)
  ∧ (concat (cluster t ms) ≡ₚ ms ↔ NoDup (MarkerData.id <$> ms)).
Proof.
  pose proof (cluster_NoDup_ids t ms) as Hnd.
  split_and!; [done|apply cluster_ids|apply cluster_elem_of| | |].
  - intros m m'. by apply NoDup_ids_inj.
  - rewrite <- (cluster_ids t ms). unfold ids.
    by rewrite size_list_to_set, length_fmap.
  - split; [|apply cluster_Permutation].
    intros Hp. by rewrite <- Hp.
Qed.

(** C5, as stated, fails: a marker with [NaN] coordinates whose id is
    also the id of another marker can be left out of every group. *)
Lemma nan_marker_omitted :
  let ms := [marker "a" 0 0; marker "a" nan nan] in
  marker "a" nan nan ∈ ms
  ∧ degenerate ms (marker "a" nan nan)
  ∧ ∀ g, g ∈ cluster 12 ms → marker "a" nan nan ∉ g.
Proof.
  split_and!.
  - right; left.
  - intros m' _. split; [apply dist_nan_l|apply dist_nan_r]; by left.
  - intros g Hg.
    assert (cluster 12 [marker "a" 0 0; marker "a" nan nan]
            = [[marker "a" 0 0]]) as Hout by (vm_compute; reflexivity).
    rewrite Hout in Hg. apply list_elem_of_singleton in Hg as ->.
    intros Heq%list_elem_of_singleton.
    apply (f_equal (λ m, is_nan (MarkerData.x m))) in Heq.
    vm_compute in Heq. discriminate.
Qed.

(** C5, amended: the pass runs to completion on every store that holds a
    list of markers, whatever the list and whatever the coordinates; and a
    marker for which every distance comparison is on a [NaN], and whose id
    no other marker of the list carries, ends up as a singleton group of
    its own and in no other group. *)
Theorem degenerate_marker_singleton t :
  (∀ ms h hm,
     read_marker_array h hm = Some ms →
     ∃ r h', cluster_store t hm h = Some (r, h')
             ∧ read_groups h' r = Some (cluster t ms))
  ∧ (∀ pre m post,
       degenerate (pre ++ m :: post) m →
       (∀ m', m' ∈ pre ++ post → MarkerData.id m' ≠ MarkerData.id m) →
       [m] ∈ cluster t (pre ++ m :: post)
       ∧ ∀ g, g ∈ cluster t (pre ++ m :: post) → m ∈ g → g = [m]).
Proof.
  split; [intros ms h hm; apply cluster_store_runs|].
  intros pre m post. set (ms := pre ++ m :: post). intros Hdeg Hid.
  assert (∀ g, g ∈ cluster t ms → m ∈ g → g = [m]) as Hown.
  { intros g (out1 & out2 & Hout)%list_elem_of_split Hm.
    apply cluster_split in Hout as (l1 & a & l2 & Hms & _ & _ & ->).
    assert (a ∈ ms) as Ha by (rewrite Hms; set_solver).
    apply elem_of_cons in Hm as [<-|Hm].
    - f_equal. apply pick_nil_iff. intros m2 Hm2 _.
      by apply nan_not_ltb, Hdeg.
    - apply pick_within in Hm.
      rewrite nan_not_ltb in Hm by by apply Hdeg. done. }
  split; [|done].
  assert (MarkerData.id m ∈ ids (concat (cluster t ms))) as Hin
    by (rewrite cluster_ids; apply elem_of_ids; set_solver).
  apply ids_elem_of in Hin as (m' & Hm' & Heq).
  assert (m' = m) as ->.
  { pose proof (cluster_elem_of _ _ _ Hm') as Hms.
    apply elem_of_app in Hms as [Hms|[->|Hms]%elem_of_cons]; [|done|].
    - by destruct (Hid m'); [set_solver|].
    - by destruct (Hid m'); [set_solver|]. }
  apply elem_of_concat in Hm' as (g & Hg & Hgin).
  by rewrite <- (Hown g Hgin Hg).
Qed.

Lemma degenerate_marker_singleton_witness :
  let A := marker "A" 0 0 in
  let N := marker "N" nan nan in
  let B := marker "B" 1 1 in
  (read_marker_array abc_store 7%positive = Some abc
   ∧ ∃ r h', cluster_store 12 7%positive abc_store = Some (r, h')
             ∧ read_groups h' r = Some (cluster 12 abc))
  ∧ degenerate ([A] ++ N :: [B]) N
  ∧ (∀ m', m' ∈ [A] ++ [B] → MarkerData.id m' ≠ MarkerData.id N)
  ∧ [N] ∈ cluster 12 ([A] ++ N :: [B])
  ∧ ∀ g, g ∈ cluster 12 ([A] ++ N :: [B]) → N ∈ g → g = [N].
Proof.
  intros A N B.
  assert (read_marker_array abc_store 7%positive = Some abc) as Hstore
    by (vm_compute; reflexivity).
  assert (degenerate ([A] ++ N :: [B]) N) as Hdeg.
  { intros m' Hm'.
    repeat (apply elem_of_cons in Hm' as [->|Hm']);
      [vm_compute; done..|by apply elem_of_nil in Hm']. }
  assert (∀ m', m' ∈ [A] ++ [B] → MarkerData.id m' ≠ MarkerData.id N)
    as Hid.
  { intros m' Hm'.
    repeat (apply elem_of_cons in Hm' as [->|Hm']);
      [vm_compute; congruence..|by apply elem_of_nil in Hm']. }
  destruct (degenerate_marker_singleton 12) as [Hruns Hsingle].
  split_and!; [exact Hstore|exact (Hruns abc _ _ Hstore)|exact Hdeg
              |exact Hid|..];
    apply (Hsingle [A] N [B] Hdeg Hid).
Defined.

(** C6: two calls of the pass on stores that hold the same markers in the
    same order, with the same threshold, return the same groups in the
    same order with the same members in the same order; in particular a
    second call on the store left by a first one. *)
Theorem cluster_deterministic t h1 hm1 h2 hm2 ms :
  read_marker_array h1 hm1 = Some ms →
  read_marker_array h2 hm2 = Some ms →
  ∃ r1 h1' r2 h2',
    cluster_store t hm1 h1 = Some (r1, h1')
    ∧ cluster_store t hm2 h2 = Some (r2, h2')
    ∧ read_groups h1' r1 = read_groups h2' r2
    ∧ read_groups h1' r1 = Some (cluster t ms).
Proof.
  intros (r1 & h1' & Hrun1 & Hread1)%(cluster_store_runs t)
         (r2 & h2' & Hrun2 & Hread2)%(cluster_store_runs t).
  exists r1, h1', r2, h2'. split_and!; congruence.
Qed.

Lemma cluster_deterministic_witness :
  read_marker_array abc_store 7%positive = Some abc
  ∧ read_marker_array abc_store_after 7%positive = Some abc
  ∧ ∃ r1 h1' r2 h2',
      cluster_store 12 7%positive abc_store = Some (r1, h1')
      ∧ cluster_store 12 7%positive abc_store_after = Some (r2, h2')
      ∧ read_groups h1' r1 = read_groups h2' r2
      ∧ read_groups h1' r1 = Some (cluster 12 abc).
Proof.
  assert (read_marker_array abc_store 7%positive = Some abc) as H1
    by (vm_compute; reflexivity).
  assert (read_marker_array abc_store_after 7%positive = Some abc) as H2
    by (vm_compute; reflexivity).
  split_and!; [exact H1|exact H2|].
  exact (cluster_deterministic 12 _ _ _ _ abc H1 H2).
Defined.

(** C7: the pass changes no cell of the store it is given, so the input
    array and every input marker read as before; the array it returns and
    the group arrays in it are at addresses that were not in use. *)
Theorem input_not_mutated t h hm ms :
  read_marker_array h hm = Some ms →
  ∃ r h',
    cluster_store t hm h = Some (r, h')
    ∧ (∀ l c, h !! l = Some c → h' !! l = Some c)
    ∧ read_marker_array h' hm = Some ms
    ∧ h !! r = None
    ∧ (∀ R gl, read_array h' r = Some R → gl ∈ R → h !! gl = None)
    ∧ read_groups h' r = Some (cluster t ms).
Proof.
  intros Hin.
  destruct (cluster_store_correct t h hm ms Hin)
    as (r & h' & R & Hrun & Hsub & Hr & Hr' & HR).
  exists r, h'. split_and!; try done.
  - intros l c Hl. by eapply lookup_weaken.
  - by eapply read_marker_array_weaken.
  - intros R' gl. unfold read_array. rewrite Hr'. intros [= <-] Hgl.
    apply list_elem_of_lookup in Hgl as [i Hi].
    destruct (Forall2_lookup_l _ _ _ _ _ HR Hi) as (g & _ & Hg & _).
    done.
  - by eapply read_groups_of_group_at.
Qed.

Lemma input_not_mutated_witness :
  read_marker_array abc_store 7%positive = Some abc
  ∧ ∃ r h',
      cluster_store 12 7%positive abc_store = Some (r, h')
      ∧ (∀ l c, abc_store !! l = Some c → h' !! l = Some c)
      ∧ read_marker_array h' 7%positive = Some abc
      ∧ abc_store !! r = None
      ∧ (∀ R gl, read_array h' r = Some R → gl ∈ R →
                 abc_store !! gl = None)
      ∧ read_groups h' r = Some (cluster 12 abc).
Proof.
  assert (read_marker_array abc_store 7%positive = Some abc) as H
    by (vm_compute; reflexivity).
  split; [exact H|]. exact (input_not_mutated 12 _ _ abc H).
Defined.

(** ** The history and the markers built from it *)

Section History.
Variables Math_sin Math_cos : float → float.
Implicit Types (entry : HistoryEntry.t) (prev history : list HistoryEntry.t).

Lemma take_app_take {A} (n m : nat) (l k : list A) :
  n ≤ length l + m → take n (l ++ take m k) = take n (l ++ k).
Proof.
  intros Hn. rewrite !take_app, take_take. do 2 f_equal. lia.
Qed.

Lemma history_push_length entry prev :
  length (history_push entry prev) = S (min 19 (length prev)).
Proof. unfold history_push. simpl. by rewrite length_take. Qed.

Lemma history_foldl prev entries :
  length prev ≤ 20 →
  foldl (λ prev entry, history_push entry prev) prev entries
  = take 20 (reverse entries ++ prev).
Proof.
  revert prev. induction entries as [|entry entries IH]; intros prev Hlen.
  - simpl. by rewrite take_ge.
  - simpl. rewrite IH by (rewrite history_push_length; lia).
    unfold history_push. rewrite reverse_cons, <- app_assoc. simpl.
    rewrite !(cons_middle entry), !app_assoc.
    apply take_app_take. rewrite length_app. simpl. lia.
Qed.

(** X1: after any sequence of pushes the history holds the twenty most
    recent entries, newest first, and never more than twenty. *)
Theorem history_after_recent entries :
  history_after entries = take 20 (reverse entries)
  ∧ length (history_after entries) = min 20 (length entries).
Proof.
  assert (history_after entries = take 20 (reverse entries)) as ->.
  { unfold history_after. rewrite history_foldl by (simpl; lia).
    by rewrite app_nil_r. }
  split; [done|]. by rewrite length_take, length_reverse.
Qed.

(** X2: the markers built after a push are those of the entries pushed
    before it, the ten most recent of them, newest first; the entry just
    pushed gets no marker. *)
Theorem historyMarkers_after_push entries entry :
  historyMarkers Math_sin Math_cos (history_after (entries ++ [entry]))
  = imap (marker_of_entry Math_sin Math_cos) (take 10 (reverse entries)).
Proof.
  destruct (history_after_recent (entries ++ [entry])) as [-> _].
  unfold historyMarkers, slice_1_11. f_equal.
  rewrite reverse_app.
  change (take 10 (drop 1 (take 20 (entry :: reverse entries)))
          = take 10 (reverse entries)).
  simpl. by rewrite drop_0, take_take.
Qed.

Lemma imap_ids (g : nat → HistoryEntry.t → MarkerData.t) history :
  (∀ i entry, MarkerData.id (g i entry) = HistoryEntry.id entry) →
  MarkerData.id <$> imap g history = HistoryEntry.id <$> history.
Proof.
  revert g. induction history as [|entry history IH]; intros g Hg; [done|].
  simpl. rewrite Hg. f_equal. apply IH. intros i e. apply Hg.
Qed.

Lemma historyMarkers_ids history :
  MarkerData.id <$> historyMarkers Math_sin Math_cos history
  = HistoryEntry.id <$> slice_1_11 history.
Proof. unfold historyMarkers. by apply imap_ids. Qed.

Lemma historyMarkers_length history :
  length (historyMarkers Math_sin Math_cos history)
  = min 10 (length history - 1).
Proof.
  unfold historyMarkers, slice_1_11.
  by rewrite length_imap, length_take, length_drop.
Qed.

Lemma cluster_nil_iff t (ms : list MarkerData.t) :
  cluster t ms = [] ↔ ms = [].
Proof.
  split; [|by intros ->]. rewrite cluster_groups.
  destruct ms as [|m ms]; [done|]. simpl.
  by rewrite decide_False by set_solver.
Qed.

(** X3: the memo returns no group at all exactly when a load is in
    progress or the history has at most one entry. *)
Theorem clusters_nil_iff history loading imageLoading :
  clusters Math_sin Math_cos history loading imageLoading = []
  ↔ loading = true ∨ imageLoading = true ∨ length history ≤ 1.
Proof.
  unfold clusters.
  destruct loading, imageLoading; simpl; try naive_solver.
  destruct (length history <=? 1) eqn:Hlen.
  - apply Nat.leb_le in Hlen. naive_solver.
  - apply Nat.leb_gt in Hlen. rewrite cluster_nil_iff. split.
    + intros Hnil. pose proof (historyMarkers_length history) as Hl.
      rewrite Hnil in Hl. cbn [length] in Hl. lia.
    + intros [?|[?|?]]; [done..|exfalso; lia].
Qed.
End History.

(** ** Further properties of the pass *)

Section Shapes.
Variable t : float.
Implicit Types (m a : MarkerData.t) (l ms : list MarkerData.t)
  (used : gset string).

(** Nothing is left for the outer loop once every id is claimed. *)
Lemma groups_all_used ms used l :
  (∀ m, m ∈ l → MarkerData.id m ∈ used) → groups t ms used l = [].
Proof.
  induction l as [|m l IH]; intros Hl; simpl; [done|].
  rewrite decide_True by (apply Hl; left).
  apply IH. intros m' Hm'. apply Hl. by right.
Qed.

(** The inner loop picks a whole list when all of it is near the anchor
    and its ids are unclaimed and pairwise distinct. *)
Lemma pick_all a used l :
  NoDup (MarkerData.id <$> l) →
  (∀ m, m ∈ l → MarkerData.id m ∉ used) →
  (∀ m, m ∈ l → (dist a m <? t)%float = true) →
  pick t a used l = l.
Proof.
  revert used. induction l as [|m l IH]; intros used Hnd Hun Hnear; [done|].
  simpl. apply NoDup_cons in Hnd as [Hm Hnd].
  rewrite decide_False by (apply Hun; left).
  rewrite Hnear by left. f_equal. apply IH; [done| |].
  - intros m' Hm'. apply not_elem_of_union. split.
    + intros Heq%elem_of_singleton. apply Hm. rewrite <- Heq.
      apply list_elem_of_fmap. eauto.
    + apply Hun. by right.
  - intros m' Hm'. apply Hnear. by right.
Qed.

Lemma groups_isolated ms l1 l :
  ms = l1 ++ l →
  NoDup (MarkerData.id <$> ms) →
  (∀ k1 m1 k2 m2,
     ms = k1 ++ m1 :: k2 → m2 ∈ k2 → (dist m1 m2 <? t)%float = false) →
  groups t ms (ids l1) l = (λ m, [m]) <$> l.
Proof.
  intros Hms Hnd Hfar. revert l1 Hms.
  induction l as [|m l IH]; intros l1 Hms; [done|]. simpl.
  assert (MarkerData.id m ∉ ids l1) as Hm.
  { intros (m' & Hm' & Heq)%ids_elem_of.
    rewrite Hms, fmap_app in Hnd. apply NoDup_app in Hnd as (_ & Hdisj & _).
    eapply (Hdisj (MarkerData.id m)).
    - rewrite <- Heq. apply list_elem_of_fmap. eauto.
    - simpl. left. }
  rewrite decide_False by done.
  assert (pick t m ({[MarkerData.id m]} ∪ ids l1) ms = []) as ->.
  { apply pick_nil_iff. intros m2 Hm2 Hun.
    apply (Hfar l1 m l m2 Hms).
    rewrite Hms in Hm2.
    apply elem_of_app in Hm2 as [Hm2|[->|Hm2]%elem_of_cons]; [| |done].
    - apply elem_of_ids in Hm2. set_solver.
    - set_solver. }
  f_equal.
  assert (ids [] ∪ ({[MarkerData.id m]} ∪ ids l1) = ids (l1 ++ [m])) as ->
    by (rewrite ids_app, ids_cons, !ids_nil; set_solver).
  apply IH. by rewrite <- app_assoc.
Qed.

(** X4: when no marker is within the threshold of a marker that comes
    before it, and the ids are pairwise distinct, the pass returns one
    singleton group for each marker, in input order; in particular no
    group for the empty list and one group for a single marker. *)
Theorem isolated_markers_singletons ms :
  NoDup (MarkerData.id <$> ms) →
  (∀ k1 m1 k2 m2,
     ms = k1 ++ m1 :: k2 → m2 ∈ k2 → (dist m1 m2 <? t)%float = false) →
  cluster t ms = (λ m, [m]) <$> ms.
Proof.
  intros Hnd Hfar. rewrite cluster_groups.
  by apply (groups_isolated ms [] ms).
Qed.

(** X5: when every other marker is within the threshold of the first
    one, and the ids are pairwise distinct, the pass returns the whole
    input as one group. *)
Theorem near_first_one_group a l :
  NoDup (MarkerData.id <$> a :: l) →
  (∀ m, m ∈ l → (dist a m <? t)%float = true) →
  cluster t (a :: l) = [a :: l].
Proof.
  intros Hnd Hnear. rewrite cluster_groups. simpl.
  rewrite fmap_cons in Hnd. apply NoDup_cons in Hnd as [Ha Hnd].
  rewrite decide_False by set_solver.
  rewrite decide_True by set_solver.
  rewrite pick_all; [|done| |done].
  - f_equal. apply groups_all_used.
    intros m Hm. apply elem_of_ids in Hm. set_solver.
  - intros m Hm. apply not_elem_of_union. split; [|set_solver].
    intros Heq%elem_of_singleton. apply Ha. rewrite <- Heq.
    apply list_elem_of_fmap. eauto.
Qed.
End Shapes.

Lemma isolated_markers_singletons_witness :
  let ms := [marker "A" 0 0; marker "B" 30 0; marker "C" 60 0] in
  NoDup (MarkerData.id <$> ms)
  ∧ (∀ k1 m1 k2 m2,
       ms = k1 ++ m1 :: k2 → m2 ∈ k2 → (dist m1 m2 <? 12)%float = false)
  ∧ cluster 12 ms = (λ m, [m]) <$> ms.
Proof.
  intros ms.
  assert (NoDup (MarkerData.id <$> ms)) as Hnd
    by (apply (bool_decide_unpack _); vm_compute; exact I).
  assert (∀ k1 m1 k2 m2,
            ms = k1 ++ m1 :: k2 → m2 ∈ k2 →
            (dist m1 m2 <? 12)%float = false) as Hfar.
  { intros k1 m1 k2 m2 Hms Hm2. unfold ms in Hms.
    destruct k1 as [|? [|? [|? [|? ?]]]]; simplify_eq/=;
      repeat (apply elem_of_cons in Hm2 as [->|Hm2]);
      try (by apply elem_of_nil in Hm2); vm_compute; reflexivity. }
  split_and!; [exact Hnd|exact Hfar|].
  exact (isolated_markers_singletons 12 ms Hnd Hfar).
Defined.

Lemma near_first_one_group_witness :
  let a := marker "A" 0 0 in
  let l := [marker "B" 5 0; marker "C" 0 5] in
  NoDup (MarkerData.id <$> a :: l)
  ∧ (∀ m, m ∈ l → (dist a m <? 12)%float = true)
  ∧ cluster 12 (a :: l) = [a :: l].
Proof.
  intros a l.
  assert (NoDup (MarkerData.id <$> a :: l)) as Hnd
    by (apply (bool_decide_unpack _); vm_compute; exact I).
  assert (∀ m, m ∈ l → (dist a m <? 12)%float = true) as Hnear.
  { intros m Hm. unfold l in Hm.
    repeat (apply elem_of_cons in Hm as [->|Hm]);
      try (by apply elem_of_nil in Hm); vm_compute; reflexivity. }
  split_and!; [exact Hnd|exact Hnear|].
  exact (near_first_one_group 12 a l Hnd Hnear).
Defined.

(** ** The pass reads ids and positions only *)

Section Relabel.
Variable t : float.
Variable f : MarkerData.t → MarkerData.t.
Hypothesis f_id : ∀ m, MarkerData.id (f m) = MarkerData.id m.
Hypothesis f_x : ∀ m, MarkerData.x (f m) = MarkerData.x m.
Hypothesis f_y : ∀ m, MarkerData.y (f m) = MarkerData.y m.

Lemma dist_relabel m1 m2 : dist (f m1) (f m2) = dist m1 m2.
Proof. unfold dist. by rewrite !f_x, !f_y. Qed.

Lemma ids_relabel (l : list MarkerData.t) : ids (f <$> l) = ids l.
Proof.
  unfold ids. rewrite <- list_fmap_compose. f_equal.
  apply list_fmap_ext. intros i m _. apply f_id.
Qed.

Lemma pick_relabel m1 used (l : list MarkerData.t) :
  pick t (f m1) used (f <$> l) = f <$> pick t m1 used l.
Proof.
  revert used. induction l as [|m2 l IH]; intros used; [done|].
  simpl. rewrite f_id, dist_relabel.
  destruct (decide _); [apply IH|].
  destruct (dist m1 m2 <? t)%float; [|apply IH].
  simpl. f_equal. apply IH.
Qed.

Lemma groups_relabel (ms : list MarkerData.t) used (l : list MarkerData.t) :
  groups t (f <$> ms) used (f <$> l)
  = (λ g : list MarkerData.t, f <$> g) <$> groups t ms used l.
Proof.
  revert used. induction l as [|m1 l IH]; intros used; [done|].
  simpl. rewrite f_id. destruct (decide _); [apply IH|].
  rewrite pick_relabel, ids_relabel. simpl. f_equal. apply IH.
Qed.
End Relabel.

(** X6: the grouping depends on the ids and the positions only: changing
    the other fields of the markers (label, description, type, thumbnail)
    changes the same fields in the output and nothing else. *)
Theorem cluster_relabel t (f : MarkerData.t → MarkerData.t) ms :
  (∀ m, MarkerData.id (f m) = MarkerData.id m) →
  (∀ m, MarkerData.x (f m) = MarkerData.x m) →
  (∀ m, MarkerData.y (f m) = MarkerData.y m) →
  cluster t (f <$> ms)
  = (λ g : list MarkerData.t, f <$> g) <$> cluster t ms.
Proof.
  intros Hid Hx Hy. rewrite !cluster_groups. by apply groups_relabel.
Qed.

Lemma cluster_relabel_witness :
  let f := λ m, MarkerData.mk (MarkerData.id m) "" "" POI
                  (MarkerData.x m) (MarkerData.y m) None in
  (∀ m, MarkerData.id (f m) = MarkerData.id m)
  ∧ (∀ m, MarkerData.x (f m) = MarkerData.x m)
  ∧ (∀ m, MarkerData.y (f m) = MarkerData.y m)
  ∧ cluster 12 (f <$> abc)
    = (λ g : list MarkerData.t, f <$> g) <$> cluster 12 abc.
Proof.
  intros f. split_and!; [reflexivity..|].
  apply (cluster_relabel 12 f abc); reflexivity.
Defined.

(** ** The groups shown for a history *)

Section Shown.
Variables Math_sin Math_cos : float → float.

(** X7: when the ids of the history entries are pairwise distinct and no
    load is in progress, each marker built from the history is in exactly
    one of the groups returned by the memo, and no group is empty. *)
Theorem clusters_partition history :
  NoDup (HistoryEntry.id <$> history) →
  Forall (λ g, g ≠ []) (clusters Math_sin Math_cos history false false)
  ∧ concat (clusters Math_sin Math_cos history false false)
    ≡ₚ historyMarkers Math_sin Math_cos history.
Proof.
  intros Hnd. unfold clusters. simpl.
  destruct (length history <=? 1) eqn:Hlen.
  - apply Nat.leb_le in Hlen. split; [constructor|].
    pose proof (historyMarkers_length Math_sin Math_cos history) as Hl.
    destruct (historyMarkers Math_sin Math_cos history); [done|].
    cbn [length] in Hl. lia.
  - split; [apply cluster_nonempty|]. apply cluster_Permutation.
    rewrite historyMarkers_ids. unfold slice_1_11.
    eapply (sublist_NoDup _ (HistoryEntry.id <$> history)); [exact Hnd|].
    apply fmap_sublist. etrans; [apply sublist_take|apply sublist_drop].
Qed.
End Shown.

Lemma clusters_partition_witness :
  let s := λ _ : float, 0%float in
  let history :=
    [HistoryEntry.mk "3" "Hub" "10:02" None None;
     HistoryEntry.mk "2" "Node" "10:01" None None;
     HistoryEntry.mk "1" "Array" "10:00" None None] in
  NoDup (HistoryEntry.id <$> history)
  ∧ Forall (λ g, g ≠ []) (clusters s s history false false)
  ∧ concat (clusters s s history false false) ≡ₚ historyMarkers s s history.
Proof.
  intros s history.
  assert (NoDup (HistoryEntry.id <$> history)) as Hnd
    by (apply (bool_decide_unpack _); vm_compute; exact I).
  split; [exact Hnd|]. exact (clusters_partition s s history Hnd).
Defined.

(** ** Markers without a finite position *)

Section Finite.
Implicit Types (d f t : float) (u v w z : spec_float).

Lemma is_finite_false d : is_finite d = false → nonfinite (Prim2SF d).
Proof.
  unfold is_finite. intros [Hn|Hi]%negb_false_iff%orb_true_iff.
  - left. by apply is_nan_spec.
  - unfold is_infinity in Hi.
    rewrite FloatAxioms.eqb_spec, FloatAxioms.abs_spec in Hi.
    change (Prim2SF infinity) with (S754_infinity false) in Hi.
    destruct (Prim2SF d) as [s|s| |s m e]; simpl in Hi; try done.
    right. by exists s.
Qed.

Lemma sub_nonfinite_l d f :
  nonfinite (Prim2SF d) → nonfinite (Prim2SF (d - f)).
Proof.
  rewrite FloatAxioms.sub_spec. intros [->|[s ->]].
  - by left.
  - destruct (Prim2SF f) as [s'|s'| |s' m e], s; try destruct s';
      simpl; unfold nonfinite; eauto.
Qed.

Lemma sub_nonfinite_r d f :
  nonfinite (Prim2SF f) → nonfinite (Prim2SF (d - f)).
Proof.
  rewrite FloatAxioms.sub_spec. intros [->|[s ->]].
  - left. by destruct (Prim2SF d) as [[]|[]| |].
  - destruct (Prim2SF d) as [s'|s'| |s' m e], s; try destruct s';
      simpl; unfold nonfinite; eauto.
Qed.

Lemma pow_2_nonfinite d :
  nonfinite (Prim2SF d) → overflowed (Prim2SF (Math_pow_2 d)).
Proof.
  unfold Math_pow_2. rewrite FloatAxioms.mul_spec. intros [->|[s ->]].
  - by left.
  - right. by destruct s.
Qed.

Lemma add_overflowed_l d f :
  overflowed (Prim2SF d) → overflowed (Prim2SF (d + f)).
Proof.
  rewrite FloatAxioms.add_spec. intros [->| ->].
  - by left.
  - destruct (Prim2SF f) as [[]|[]| |]; simpl; unfold overflowed; eauto.
Qed.

Lemma add_overflowed_r d f :
  overflowed (Prim2SF f) → overflowed (Prim2SF (d + f)).
Proof.
  rewrite FloatAxioms.add_spec. intros [->| ->].
  - left. by destruct (Prim2SF d) as [[]|[]| |].
  - destruct (Prim2SF d) as [[]|[]| |]; simpl; unfold overflowed; eauto.
Qed.

Lemma sqrt_overflowed d :
  overflowed (Prim2SF d) → overflowed (Prim2SF (PrimFloat.sqrt d)).
Proof.
  rewrite FloatAxioms.sqrt_spec. intros [->| ->]; [by left|by right].
Qed.

(** Neither [NaN] nor [+Infinity] is below a number. *)
Lemma overflowed_not_ltb d t :
  overflowed (Prim2SF d) → (d <? t)%float = false.
Proof.
  rewrite FloatAxioms.ltb_spec. unfold SFltb. intros [->| ->]; [done|].
  by destruct (Prim2SF t) as [[]|[]| |].
Qed.

(** A marker with a coordinate that is not finite is within no threshold
    of any marker, on either side of the comparison. *)
Lemma dist_nonfinite m m' t :
  is_finite (MarkerData.x m) = false ∨ is_finite (MarkerData.y m) = false →
  (dist m m' <? t)%float = false ∧ (dist m' m <? t)%float = false.
Proof.
  intros H. split; apply overflowed_not_ltb; unfold dist;
    apply sqrt_overflowed; destruct H as [H%is_finite_false|H%is_finite_false].
  - by apply add_overflowed_l, pow_2_nonfinite, sub_nonfinite_l.
  - by apply add_overflowed_r, pow_2_nonfinite, sub_nonfinite_l.
  - by apply add_overflowed_l, pow_2_nonfinite, sub_nonfinite_r.
  - by apply add_overflowed_r, pow_2_nonfinite, sub_nonfinite_r.
Qed.

(** X8: whatever the threshold, a group of two or more markers holds
    only markers whose coordinates are finite numbers: a marker with a
    [NaN] or infinite coordinate is never grouped with another one. *)
Theorem grouped_markers_finite t ms g m :
  g ∈ cluster t ms → 2 ≤ length g → m ∈ g →
  is_finite (MarkerData.x m) = true ∧ is_finite (MarkerData.y m) = true.
Proof.
  intros Hg Hlen Hm.
  destruct g as [|a [|m0 rest]]; simpl in Hlen; [lia..|].
  pose proof (cluster_group_within t ms _ a (m0 :: rest) Hg eq_refl) as Hnear.
  rewrite Forall_forall in Hnear.
  assert (∃ m', (dist a m' <? t)%float = true
                ∨ (dist m' m <? t)%float = true ∧ m' = a) as [m' Hm'].
  { apply elem_of_cons in Hm as [->|Hm].
    - exists m0. left. apply Hnear. left.
    - exists a. right. split; [by apply Hnear|done]. }
  destruct (is_finite (MarkerData.x m)) eqn:Hx,
           (is_finite (MarkerData.y m)) eqn:Hy; [done|..].
  all: exfalso.
  all: assert (is_finite (MarkerData.x m) = false
               ∨ is_finite (MarkerData.y m) = false) as Hbad
         by (rewrite Hx, Hy; auto).
  all: apply elem_of_cons in Hm as [->|Hm].
  all: try (destruct (dist_nonfinite a m0 t Hbad) as [Hf _];
            rewrite Hnear in Hf by left; discriminate).
  all: destruct (dist_nonfinite m a t Hbad) as [_ Hf];
       rewrite Hnear in Hf by done; discriminate.
Qed.
End Finite.

Lemma grouped_markers_finite_witness :
  let A := marker "A" 0 0 in
  let B := marker "B" 10 0 in
  [A; B] ∈ cluster 12 abc ∧ 2 ≤ length [A; B] ∧ B ∈ [A; B]
  ∧ is_finite (MarkerData.x B) = true ∧ is_finite (MarkerData.y B) = true.
Proof.
  intros A B.
  assert ([A; B] ∈ cluster 12 abc) as Hg by (vm_compute; left).
  assert (B ∈ [A; B]) as Hm by (right; left).
  split_and!; [exact Hg|simpl; lia|exact Hm|..];
    apply (grouped_markers_finite 12 abc [A; B] B Hg (le_n 2) Hm).
Defined.

(** ** Earlier anchors come first *)

Section Earliest.
Variable t : float.
Implicit Types (m a : MarkerData.t) (l ms : list MarkerData.t)
  (used : gset string).



End Earliest.


(** ** Ripples *)

Section Ripples.
Implicit Types (r : Ripple.t) (ev : ripple_event)
  (events tr : list ripple_event).

Lemma ripples_after_snoc events ev :
  ripples_after (events ++ [ev]) = ripple_step (ripples_after events) ev.
Proof. unfold ripples_after. by rewrite foldl_app. Qed.

Lemma snoc_split {A} (l l1 l2 : list A) (x y : A) :
  l ++ [x] = l1 ++ y :: l2 →
  (l2 = [] ∧ l = l1 ∧ x = y) ∨ ∃ k, l2 = k ++ [x] ∧ l = l1 ++ y :: k.
Proof.
  destruct l2 as [|z l2 _] using rev_ind.
  - intros [-> ->]%app_inj_tail. by left.
  - rewrite app_comm_cons, app_assoc. intros [-> ->]%app_inj_tail.
    right. by exists l2.
Qed.

(** X10: a ripple is on screen exactly when it was added by a click after
    which no timeout for its id has fired; a timeout removes every ripple
    that carries its id and no other. *)
Theorem ripple_shown_iff events r :
  r ∈ ripples_after events ↔
  ∃ tr1 tr2,
    events = tr1 ++ Click r :: tr2
    ∧ ∀ id, Expire id ∈ tr2 → (Ripple.id r =? id)%float = false.
Proof.
  induction events as [|ev events IH] using rev_ind.
  - split; [by intros ?%elem_of_nil|].
    by intros (tr1 & tr2 & ?%app_cons_not_nil & _).
  - rewrite ripples_after_snoc. destruct ev as [r'|id]; simpl.
    + unfold add_ripple. rewrite elem_of_app, list_elem_of_singleton, IH.
      split.
      * intros [(tr1 & tr2 & -> & Hexp)| ->].
        -- exists tr1, (tr2 ++ [Click r']). split; [by rewrite <- app_assoc|].
           intros id [?|Hin]%elem_of_app; [by apply Hexp|].
           by apply list_elem_of_singleton in Hin.
        -- exists events, []. split; [done|]. by intros id ?%elem_of_nil.
      * intros (tr1 & tr2 & Heq & Hexp).
        apply snoc_split in Heq as [(-> & -> & [= ->])|(k & -> & ->)].
        -- by right.
        -- left. exists tr1, k. split; [done|].
           intros id Hin. apply Hexp, elem_of_app. by left.
    + unfold expire_ripple. rewrite list_elem_of_filter, IH.
      rewrite negb_true_iff. split.
      * intros (Hne & tr1 & tr2 & -> & Hexp).
        exists tr1, (tr2 ++ [Expire id]). split; [by rewrite <- app_assoc|].
        intros id' [?|Hin]%elem_of_app; [by apply Hexp|].
        by apply list_elem_of_singleton in Hin as [= ->].
      * intros (tr1 & tr2 & Heq & Hexp).
        apply snoc_split in Heq as [(_ & _ & [=])|(k & -> & ->)].
        split.
        -- apply Hexp, elem_of_app. right. left.
        -- exists tr1, k. split; [done|].
           intros id' Hin. apply Hexp, elem_of_app. by left.
Qed.
End Ripples.

(** ** Audio samples *)

Section Samples.
Lemma Z_range_elem (v k : Z) (count : nat) :
  (v ≤ k < v + Z.of_nat count)%Z → In k (Z_range v count).
Proof.
  revert v. induction count as [|count IH]; intros v Hk; [lia|].
  simpl. destruct (decide (v = k)) as [->|]; [by left|].
  right. apply IH. lia.
Qed.

(** X11: every 16-bit value [v] becomes the sample [v / 32768]: storing
    the quotient as a 32-bit float changes nothing, the sample lies in
    [-1, 1), and multiplying it by 32768 gives [v] back, so no two values
    share a sample. *)
Theorem pcm_sample_exact (v : Z) :
  (-32768 ≤ v ≤ 32767)%Z →
  pcm_sample v = (number_of_Z v / 32768)%float
  ∧ (-1 <=? pcm_sample v)%float = true
  ∧ (pcm_sample v <? 1)%float = true
  ∧ (pcm_sample v * 32768)%float = number_of_Z v.
Proof.
  intros Hv.
  assert (forallb pcm_sample_ok (Z_range (-32768) (Z.to_nat 65536)) = true)
    as Hall by (vm_compute; reflexivity).
  rewrite forallb_forall in Hall.
  assert (In v (Z_range (-32768) (Z.to_nat 65536))) as Hin
    by (apply Z_range_elem; lia).
  specialize (Hall v Hin).
  unfold pcm_sample_ok in Hall.
  apply andb_true_iff in Hall as [[[H1 H2]%andb_true_iff H3]%andb_true_iff H4].
  apply FloatAxioms.Leibniz.eqb_spec in H1, H4. done.
Qed.
End Samples.

Lemma pcm_sample_exact_witness :
  (-32768 ≤ -12345 ≤ 32767)%Z
  ∧ pcm_sample (-12345) = (number_of_Z (-12345) / 32768)%float
  ∧ (-1 <=? pcm_sample (-12345))%float = true
  ∧ (pcm_sample (-12345) <? 1)%float = true
  ∧ (pcm_sample (-12345) * 32768)%float = number_of_Z (-12345).
Proof.
  split; [lia|]. apply (pcm_sample_exact (-12345)). lia.
Defined.
